(** * Langflow frontend: a shallow embedding of the UI logic and its properties

    The development follows the TypeScript sources: every module below embeds
    one source file (named in its header), first the definitions, then, in the
    second half of the file, the properties proved about them.

    Conventions.
    - A JavaScript string whose characters the code inspects (filtering,
      trimming, JSON quoting, regular expressions) is a [list ascii], one
      element per code unit; strings that are only passed around (translation
      keys, class names, test ids) are [string].
    - A React element is a tree ([React.Element]); a component is a function
      from its props (and the translation function [t] it obtains from
      [useTranslation]) to such a tree.
    - Stores and browser objects are records or finite maps, threaded
      explicitly. *)

From Stdlib Require Import Ascii String ZArith QArith Lia.
From stdpp Require Import base list strings gmap.

Set Default Proof Using "Type".
Local Open Scope Z_scope.
Local Open Scope nat_scope.

(** Turning a literal into a sequence of code units. *)
Definition js (s : string) : list ascii := list_ascii_of_string s.

(* ===================================================================== *)
(** * Part I: definitions                                                 *)
(* ===================================================================== *)

(** ** React elements, JavaScript values *)

Module React.

(** The JavaScript values a prop of unknown type may hold. *)
Inductive JsValue : Type :=
| JsUndefined
| JsNull
| JsBool (b : bool)
| JsNumber (n : Z)
| JsString (s : string)
| JsObject (ref : nat).

(** [a === b]: same type and same value; objects by reference. *)
Definition strict_equals (a b : JsValue) : bool :=
  match a, b with
  | JsUndefined, JsUndefined => true
  | JsNull, JsNull => true
  | JsBool x, JsBool y => Bool.eqb x y
  | JsNumber x, JsNumber y => Z.eqb x y
  | JsString x, JsString y => String.eqb x y
  | JsObject x, JsObject y => Nat.eqb x y
  | _, _ => false
  end.

(** The value of a JSX attribute; [F] is the type of the function values
    (event handlers, setters) of the component at hand. *)
Inductive Attr (F : Type) : Type :=
| AStr (s : string)
| ABool (b : bool)
| ANum (q : Q)
| AVal (v : JsValue)
| AFun (f : F).

#[warnings="-register-all"]
Inductive Element (F : Type) : Type :=
| Text (s : string)
| Fragment (children : list (Element F))
| Elem (tag : string) (attrs : list (string * Attr F))
       (children : list (Element F)).

Arguments AStr {F} s.
Arguments ABool {F} b.
Arguments ANum {F} q.
Arguments AVal {F} v.
Arguments AFun {F} f.
Arguments Text {F} s.
Arguments Fragment {F} children.
Arguments Elem {F} tag attrs children.

(** Attribute lookup, first binding wins. *)
Fixpoint attr {F} (name : string) (attrs : list (string * Attr F))
  : option (Attr F) :=
  match attrs with
  | [] => None
  | (n, v) :: rest => if String.eqb n name then Some v else attr name rest
  end.

(** All elements with a given tag, in document order. *)
Fixpoint by_tag {F} (tag : string) (e : Element F) : list (Element F) :=
  match e with
  | Text _ => []
  | Fragment cs => flat_map (by_tag tag) cs
  | Elem tg attrs cs =>
      (if String.eqb tg tag then [e] else []) ++ flat_map (by_tag tag) cs
  end.

Definition attrs_of {F} (e : Element F) : list (string * Attr F) :=
  match e with
  | Elem _ attrs _ => attrs
  | _ => []
  end.

Definition tag_of {F} (e : Element F) : option string :=
  match e with
  | Elem tg _ _ => Some tg
  | _ => None
  end.

Definition children_of {F} (e : Element F) : list (Element F) :=
  match e with
  | Elem _ _ cs => cs
  | Fragment cs => cs
  | Text _ => []
  end.

End React.

(** ** GenericErrorComponent (health-check banner) *)

Module GenericError.
Import React.

Section Component.
Context {F : Type}.
(** [t] is the translation function of [useTranslation]. *)
Variable t : string -> string.

Record Props : Type := {
  healthCheckTimeout : JsValue;
  fetching : JsValue;
  retry : F;
}.

Definition GenericErrorComponent (p : Props) : Element F :=
  if strict_equals (healthCheckTimeout p) (JsString "serverDown") then
    Elem "CustomFetchErrorComponent"
      [("description", AStr (t "constants.error.fetchDescription"));
       ("message", AStr (t "constants.error.fetch"));
       ("openModal", ABool true);
       ("setRetry", AFun (retry p));
       ("isLoadingHealth", AVal (fetching p))]
      []
  else if strict_equals (healthCheckTimeout p) (JsString "timeout") then
    Elem "TimeoutErrorComponent"
      [("description", AStr (t "constants.timeout.timeout"));
       ("message", AStr (t "constants.timeout.timeoutDescription"));
       ("openModal", ABool true);
       ("setRetry", AFun (retry p));
       ("isLoadingHealth", AVal (fetching p))]
      []
  else Fragment [].
(** What the banner is, by its root. *)
Definition is_fetch_error (e : Element F) : Prop :=
  tag_of e = Some "CustomFetchErrorComponent".
Definition is_timeout_error (e : Element F) : Prop :=
  tag_of e = Some "TimeoutErrorComponent".

End Component.

Arguments Props F : clear implicits.
End GenericError.

(** ** PlaygroundButton *)

Module Playground.
Import React.

Section Component.
Context {F : Type}.
Variable t : string -> string.
(** Feature flag of [@/customization/feature-flags]. *)
Variable ENABLE_PUBLISH : bool.

Record PlaygroundButtonProps : Type := {
  hasIO : bool;
  open : bool;
  setOpen : F;
  canvasOpen : bool;
}.

Definition PlayIcon : Element F :=
  Elem "ForwardedIconComponent"
    [("name", AStr "Play");
     ("className", AStr "h-4 w-4 transition-all");
     ("strokeWidth", ANum (if ENABLE_PUBLISH then 2 else 3 # 2)%Q)]
    [].

Definition ButtonLabel : Element F :=
  Elem "span" [("className", AStr "hidden md:block")]
    [Text (t "flow.panel.playground.displayName")].

Definition ActiveButton : Element F :=
  Elem "div"
    [("data-testid", AStr "playground-btn-flow-io");
     ("className", AStr "playground-btn-flow-toolbar hover:bg-accent")]
    [PlayIcon; ButtonLabel].

Definition DisabledButton : Element F :=
  Elem "div"
    [("className",
      AStr "playground-btn-flow-toolbar cursor-not-allowed text-muted-foreground duration-150");
     ("data-testid", AStr "playground-btn-flow")]
    [PlayIcon; ButtonLabel].

Definition PlaygroundButton (p : PlaygroundButtonProps) : Element F :=
  if hasIO p then
    Elem "CustomIOModal"
      [("open", ABool (open p));
       ("setOpen", AFun (setOpen p));
       ("disable", ABool (negb (hasIO p)));
       ("canvasOpen", ABool (canvasOpen p))]
      [ActiveButton]
  else
    Elem "ShadTooltip"
      [("content", AStr (t "flow.panel.playground.tooltip"))]
      [Elem "div" [] [DisabledButton]].
(** The modal around the active button. *)
Definition is_playground_modal (e : Element F) : Prop :=
  exists attrs,
    e = Elem "CustomIOModal" attrs [ActiveButton].

(** The disabled button inside the tooltip that explains why. *)
Definition is_disabled_with_tooltip (e : Element F) : Prop :=
  e = Elem "ShadTooltip"
        [("content", AStr (t "flow.panel.playground.tooltip"))]
        [Elem "div" [] [DisabledButton]].

End Component.

Arguments PlaygroundButtonProps F : clear implicits.
End Playground.

(** ** NoInputView (run / stop control of the chat panel) *)

Module NoInput.
Import React.

Section Component.
(** [E] is the type of what a callback does when called (for
    [sendMessage], the promise it returns). *)
Context {E : Type}.
Variable t : string -> string.

Record SendArgs : Type := { repeat : Z }.

Record NoInputViewProps : Type := {
  isBuilding : bool;
  sendMessage : SendArgs -> E;
  stopBuilding : unit -> E;
}.

(** Click handlers take the click event, of which nothing is used. *)
Definition Handler : Type := unit -> E.

Definition NoInputView (p : NoInputViewProps) : Element Handler :=
  Elem "div"
    [("className", AStr "flex h-full w-full flex-col items-center justify-center")]
    [Elem "div"
       [("className",
         AStr "flex w-full flex-col items-center justify-center gap-3 rounded-md border border-input bg-muted p-2 py-4")]
       [(if negb (isBuilding p) then
           Elem "Button"
             [("data-testid", AStr "button-send");
              ("className", AStr "font-semibold");
              ("onClick", AFun (fun _ => sendMessage p {| repeat := 1 |}))]
             [Text (t "chat.input.runFlow")]
         else
           Elem "Button"
             [("onClick", AFun (stopBuilding p));
              ("data-testid", AStr "button-stop");
              ("unstyled", ABool true);
              ("className",
               AStr "form-modal-send-button cursor-pointer bg-muted text-foreground hover:bg-secondary-hover dark:hover:bg-input")]
             [Elem "div"
                [("className", AStr "flex items-center gap-2 rounded-md text-sm font-medium")]
                [Text (t "chat.input.stop");
                 Elem "Loading" [("className", AStr "h-4 w-4")] []]]);
        Elem "p" [("className", AStr "text-muted-foreground")]
          [Text (t "chat.input.addChatInput");
           Text " ";
           Elem "a"
             [("className", AStr "underline underline-offset-4");
              ("target", AStr "_blank");
              ("href", AStr "https://docs.langflow.org/components-io#chat-input");
              ("rel", AStr "noopener")]
             [Text (t "chat.input.chatInputLink")];
           Text " ";
           Text (t "chat.input.componentToSendMessages")]]].
(** What a button is: its test id and what its click handler is. *)
Definition test_id (b : Element Handler) : option (Attr Handler) :=
  attr "data-testid" (attrs_of b).
Definition on_click (b : Element Handler) : option (Attr Handler) :=
  attr "onClick" (attrs_of b).

End Component.

Arguments NoInputViewProps E : clear implicits.
End NoInput.

(** ** React's [useMemo] and the translation function of react-i18next *)

Module Hooks.

(** The function [t] returned by [useTranslation]: a function object, which
    has an identity ([t_ref]) besides its behaviour. react-i18next hands out a
    new function object when the language changes. *)
Record TFunction : Type := {
  t_ref : nat;
  t_apply : string -> string;
}.

(** A dependency of a hook is compared by identity ([Object.is]). *)
Definition Dep : Type := nat.

(** The memory cell React keeps for one [useMemo] call of one mounted
    component: [None] before the first render. *)
Record MemoCell (V : Type) : Type := {
  memo_deps : list Dep;
  memo_value : V;
}.
Arguments memo_deps {V} _.
Arguments memo_value {V} _.

(** [useMemo(factory, deps)]: on mount the factory runs; on a later render it
    runs again only when some dependency differs from the stored ones. *)
Definition useMemo {V : Type} (factory : unit -> V) (deps : list Dep)
    (cell : option (MemoCell V)) : V * option (MemoCell V) :=
  match cell with
  | Some c =>
      if decide (memo_deps c = deps) then (memo_value c, Some c)
      else
        let v := factory tt in
        (v, Some {| memo_deps := deps; memo_value := v |})
  | None =>
      let v := factory tt in
      (v, Some {| memo_deps := deps; memo_value := v |})
  end.

End Hooks.

(** ** i18n/locale.ts: [useMessageLocale], [useFormLocale] *)

Module Locale.
Import Hooks.

(** An object literal with string values, as written. *)
Definition LocaleObject : Type := list (string * string).

(** Property read [obj.key]. *)
Fixpoint get (key : string) (obj : LocaleObject) : option string :=
  match obj with
  | [] => None
  | (k, v) :: rest => if String.eqb k key then Some v else get key rest
  end.

(** The body of the function given to [useMemo] in [useMessageLocale]. *)
Definition messageLocaleFactory (t : string -> string) : LocaleObject :=
  [ ("DEFAULT_TABLE_ALERT_MSG", t "messages.alertMessage");
    ("DEFAULT_TABLE_ALERT_TITLE", t "messages.noData");
    ("NO_COLUMN_DEFINITION_ALERT_TITLE", t "messages.noColumnDefinitionTitle");
    ("NO_COLUMN_DEFINITION_ALERT_DESCRIPTION", t "messages.noColumnDefinitionDescription");
    ("FS_ERROR_TEXT", t "messages.fsErrorText");
    ("ERROR_UPDATING_COMPONENT", t "messages.errorUpdatingComponent");
    ("TITLE_ERROR_UPDATING_COMPONENT", t "messages.titleErrorUpdatingComponent");
    ("EMPTY_INPUT_SEND_MESSAGE", t "messages.emptyInputSend");
    ("EMPTY_OUTPUT_SEND_MESSAGE", t "messages.emptyOutputSend");
    ("CSV_VIEW_ERROR_TITLE", t "messages.csvViewErrorTitle");
    ("CSV_NO_DATA_ERROR", t "messages.csvNoDataError");
    ("PDF_VIEW_CONSTANT", t "messages.pdfViewConstant");
    ("CSV_ERROR", t "messages.csvError");
    ("PDF_LOAD_ERROR_TITLE", t "messages.pdfLoadErrorTitle");
    ("PDF_CHECK_FLOW", t "messages.pdfCheckFlow");
    ("PDF_ERROR_TITLE", t "messages.pdfErrorTitle");
    ("PDF_LOAD_ERROR", t "messages.pdfLoadError");
    ("IMG_VIEW_CONSTANT", t "messages.imgViewConstant");
    ("IMG_VIEW_ERROR_MSG", t "messages.imgViewErrorMsg");
    ("IMG_VIEW_ERROR_TITLE", t "messages.imgViewErrorTitle");
    ("FLOW_BUILT_FAILED", t "messages.flowBuildFailed");
    ("FLOW_BUILT_SUCCESSFULLY", t "messages.flowBuiltSuccessfully") ].

(** One call of the hook during a render: [t] is what [useTranslation]
    returned for this render, [cell] the memo cell of the component.
    The dependency array is the empty array of the source. *)
Definition useMessageLocale (t : TFunction)
    (cell : option (MemoCell LocaleObject))
  : LocaleObject * option (MemoCell LocaleObject) :=
  useMemo (fun _ => messageLocaleFactory (t_apply t)) [] cell.

(** The body of the function given to [useMemo] in [useFormLocale]. *)
Definition formLocaleFactory (t : string -> string) : LocaleObject :=
  [ ("DEFAULT_PLACEHOLDER", t "forms.defaultPlaceholder");
    ("RECEIVING_INPUT_VALUE", t "forformsm.receivingInputValue");
    ("SELECT_AN_OPTION", t "forms.selectOptions");
    ("DEFAULT_TOOLSET_PLACEHOLDER", t "forms.defaultToolsetPlaceholder");
    ("EDIT_TEXT_PLACEHOLDER", t "forms.editTextPlaceholder");
    ("EDIT_TEXT_MODAL_TITLE", t "forms.editTextModalTitle");
    ("TEXT_DIALOG_TITLE", t "forms.textDialogTitle") ].

Definition useFormLocale (t : TFunction)
    (cell : option (MemoCell LocaleObject))
  : LocaleObject * option (MemoCell LocaleObject) :=
  useMemo (fun _ => formLocaleFactory (t_apply t)) [] cell.

(** The successive renders of one mounted component that calls a hook:
    [ts] lists the translation function in force at each render; the result
    lists what the hook returned at each render. *)
Fixpoint renders {V : Type}
    (hook : TFunction -> option (MemoCell V) -> V * option (MemoCell V))
    (cell : option (MemoCell V)) (ts : list TFunction) : list V :=
  match ts with
  | [] => []
  | t :: ts' =>
      let '(v, cell') := hook t cell in
      v :: renders hook cell' ts'
  end.

(** A component is mounted with an empty memo cell. *)
Definition mounted {V : Type}
    (hook : TFunction -> option (MemoCell V) -> V * option (MemoCell V))
    (ts : list TFunction) : list V :=
  renders hook None ts.

(** The hook as the memoisation of the other locale hook of the file that
    lists [t] as its dependency ([useShortcutsLocale]) would have it. *)
Definition useMemo_on_t {V : Type} (factory : (string -> string) -> V)
    (t : TFunction) (cell : option (MemoCell V)) : V * option (MemoCell V) :=
  useMemo (fun _ => factory (t_apply t)) [t_ref t] cell.

(** Two translation functions, as handed out before and after a switch from
    English to Chinese: different function objects that translate
    differently. *)
Definition t_en : TFunction :=
  {| t_ref := 1; t_apply := fun key => "[en] " +:+ key |}.
Definition t_zh : TFunction :=
  {| t_ref := 2; t_apply := fun key => "[zh] " +:+ key |}.

End Locale.

(** ** controllers/API/queries/locale/use-put-switch-locale.ts *)

Module SwitchLocale.

(** [type Language = 'en' | 'zh'] *)
Inductive Language : Type := en | zh.

Record ISwitchLocale : Type := { lang : Language }.

Section Api.
(** [Data] is the type of a response body, [Err] of what a failed request
    rejects with. *)
Context {Data Err : Type}.
(** [getURL] of [controllers/API/helpers/constants]. *)
Variable getURL : string -> string.

Record Response : Type := {
  data : Data;
  status : Z;
}.

(** An asynchronous computation that may call the HTTP client. Awaiting a
    request that fails throws, which, with no handler around it, rejects the
    enclosing async function: [ApiPut] has a continuation for the response
    only. *)
Inductive Async (A : Type) : Type :=
| Resolve (a : A)
| Reject (e : Err)
| ApiPut (url : string) (body : ISwitchLocale) (k : Response -> Async A).
Arguments Resolve {A} a.
Arguments Reject {A} e.
Arguments ApiPut {A} url body k.

Fixpoint bind {A B : Type} (m : Async A) (f : A -> Async B) : Async B :=
  match m with
  | Resolve a => f a
  | Reject e => Reject e
  | ApiPut url body k => ApiPut url body (fun r => bind (k r) f)
  end.

Notation "'const' x ':=' 'await' m 'in' k" := (bind m (fun x => k))
  (at level 10, x name, m at level 99, k at level 200).

(** [const response = await api.put(url, payload); return response.data] *)
Definition switchLocaleFn (payload : ISwitchLocale) : Async Data :=
  ApiPut (getURL "LOCALE" +:+ "/switch/") payload
    (fun response => Resolve (data response)).

(** The function handed to [mutate]:
    [async (payload) => { const res = await switchLocaleFn(payload); return res; }] *)
Definition mutationFn (payload : ISwitchLocale) : Async Data :=
  const res := await switchLocaleFn payload in Resolve res.

(** What went over the wire. *)
Inductive Request : Type :=
| PUT (url : string) (body : ISwitchLocale).

(** The other side: what the [n]-th request of a run is answered with. *)
Definition Server : Type := nat -> Request -> Err + Response.

(** Running a computation against a server: the requests issued, in order,
    and how the promise settles. *)
Fixpoint run {A : Type} (srv : Server) (sent : list Request) (m : Async A)
  : list Request * (Err + A) :=
  match m with
  | Resolve a => (sent, inr a)
  | Reject e => (sent, inl e)
  | ApiPut url body k =>
      let rq := PUT url body in
      match srv (length sent) rq with
      | inl e => (sent ++ [rq], inl e)
      | inr resp => run srv (sent ++ [rq]) (k resp)
      end
  end.

(** The one request of a switch. *)
Definition switch_request (payload : ISwitchLocale) : Request :=
  PUT (getURL "LOCALE" +:+ "/switch/") payload.

End Api.

Arguments Response Data : clear implicits.
Arguments Async Data Err A : clear implicits.
Arguments Server Data Err : clear implicits.
End SwitchLocale.

(** ** The string methods of JavaScript the sources call *)

Module JsStr.

(** The code unit of a character. *)
Definition code (c : ascii) : N := N_of_ascii c.

(** [toLowerCase] on one code unit: the letters A-Z and, in the Latin-1
    range, the capital letters from 0xC0 to 0xDE (0xD7, the multiplication
    sign, is not a letter). *)
Definition lower_char (c : ascii) : ascii :=
  let n := code c in
  if ((65 <=? n) && (n <=? 90)
      || (192 <=? n) && (n <=? 222) && negb (n =? 215))%N
  then ascii_of_N (n + 32) else c.

(** [s.toLowerCase()] *)
Definition toLowerCase (s : list ascii) : list ascii := map lower_char s.

(** [s.startsWith(p)] *)
Fixpoint startsWith (s p : list ascii) {struct p} : bool :=
  match p, s with
  | [], _ => true
  | _ :: _, [] => false
  | a :: p', b :: s' => if Ascii.eqb a b then startsWith s' p' else false
  end.

(** [s.includes(sub)]: [sub] occurs in [s] at some position. *)
Fixpoint includes (s sub : list ascii) : bool :=
  startsWith s sub ||
  match s with
  | [] => false
  | _ :: s' => includes s' sub
  end.

(** White space in the sense of [trim]: TAB, LF, VT, FF, CR, space and the
    no-break space. *)
Definition is_white_space (c : ascii) : bool :=
  let n := code c in
  ((9 <=? n) && (n <=? 13) || (n =? 32) || (n =? 160))%N.

(** [s.trimStart()] *)
Fixpoint trimStart (s : list ascii) : list ascii :=
  match s with
  | [] => []
  | c :: s' => if is_white_space c then trimStart s' else s
  end.

(** [s.trimEnd()] *)
Definition trimEnd (s : list ascii) : list ascii :=
  rev (trimStart (rev s)).

(** [s.trim()] *)
Definition trim (s : list ascii) : list ascii := trimEnd (trimStart s).

(** [s.split(sep)] for a separator of one character: the pieces between the
    occurrences of [sep]; never the empty array. *)
Fixpoint split (sep : ascii) (s : list ascii) : list (list ascii) :=
  match s with
  | [] => [[]]
  | c :: s' =>
      if Ascii.eqb c sep then [] :: split sep s'
      else
        match split sep s' with
        | piece :: pieces => (c :: piece) :: pieces
        | [] => [[c]]
        end
  end.

(** [sub] occurs in [s]: what [includes] decides. *)
Definition occurs_in (sub s : list ascii) : Prop :=
  exists pre post, s = pre ++ sub ++ post.

(** The part of [s] before the first [sep], all of [s] when there is
    none. *)
Fixpoint before_first (sep : ascii) (s : list ascii) : list ascii :=
  match s with
  | [] => []
  | c :: s' => if Ascii.eqb c sep then [] else c :: before_first sep s'
  end.

End JsStr.

(** ** pages/AdminPage/index.tsx: the user filter *)

Module Admin.
Import JsStr.

Section Page.
(** The type [Users] of [types/api] with the one field the filter reads. *)
Context {Users : Type}.
Variable username : Users -> list ascii.

(** The state of the page the filter touches: the text of the search box,
    the ref holding the users fetched last, and the list on display. *)
Record PageState : Type := {
  inputValue : list ascii;
  userList_current : list Users;
  filterUserList : list Users;
}.

Definition setInputValue (v : list ascii) (st : PageState) : PageState :=
  {| inputValue := v;
     userList_current := userList_current st;
     filterUserList := filterUserList st |}.

Definition setFilterUserList (l : list Users) (st : PageState) : PageState :=
  {| inputValue := inputValue st;
     userList_current := userList_current st;
     filterUserList := l |}.

(** The [onSuccess] of [getUsers] and of [handleChangePagination]:
    [userList.current = users["users"]; setFilterUserList(users["users"])] *)
Definition onUsersFetched (users : list Users) (st : PageState) : PageState :=
  setFilterUserList users
    {| inputValue := inputValue st;
       userList_current := users;
       filterUserList := filterUserList st |}.

(** The predicate given to [filter]. *)
Definition matches_filter (input : list ascii) (user : Users) : bool :=
  includes (toLowerCase (username user)) (toLowerCase input).

Definition handleFilterUsers (input : list ascii) (st : PageState)
  : PageState :=
  let st := setInputValue input st in
  if decide (input = []) then
    setFilterUserList (userList_current st) st
  else
    let filteredList := List.filter (matches_filter input) (userList_current st) in
    setFilterUserList filteredList st.

(** The users the filter is said to keep: those whose lowercased name
    contains the lowercased input. *)
Definition name_contains (input : list ascii) (user : Users) : Prop :=
  occurs_in (toLowerCase input) (toLowerCase (username user)).

End Page.

Arguments PageState Users : clear implicits.
End Admin.

(** ** pages/SignUpPage/index.tsx *)

Module SignUp.
Import JsStr.

Record signUpInputStateType : Type := {
  password : list ascii;
  cnfPassword : list ascii;
  username : list ascii;
}.

(** [CONTROL_INPUT_STATE] of constants/constants.ts *)
Definition CONTROL_INPUT_STATE : signUpInputStateType :=
  {| password := []; cnfPassword := []; username := [] |}.

(** The two pieces of component state. *)
Record State : Type := {
  inputState : signUpInputStateType;
  isDisabled : bool;
}.

(** The names [handleInput] is called with by the three inputs. *)
Inductive FieldName : Type := f_username | f_password | f_cnfPassword.

(** [setInputState((prev) => ({ ...prev, [name]: value }))] *)
Definition handleInput (name : FieldName) (value : list ascii)
    (prev : signUpInputStateType) : signUpInputStateType :=
  match name with
  | f_username =>
      {| password := password prev; cnfPassword := cnfPassword prev;
         username := value |}
  | f_password =>
      {| password := value; cnfPassword := cnfPassword prev;
         username := username prev |}
  | f_cnfPassword =>
      {| password := password prev; cnfPassword := value;
         username := username prev |}
  end.

Definition setDisableBtn (b : bool) (st : State) : State :=
  {| inputState := inputState st; isDisabled := b |}.

(** The effect run after each render (its dependency [handleInput] is a new
    function at every render). *)
Definition effect (st : State) : State :=
  let i := inputState st in
  if negb (bool_decide (password i = cnfPassword i)) then setDisableBtn true st
  else if bool_decide (password i = []) || bool_decide (cnfPassword i = [])
  then setDisableBtn true st
  else if bool_decide (username i = []) then setDisableBtn true st
  else setDisableBtn false st.

(** [UserInputType], the payload of the sign-up request. *)
Record UserInputType : Type := {
  new_username : list ascii;
  new_password : list ascii;
}.

(** The request [handleSignup] hands to [mutateAddUser]. *)
Definition handleSignup (i : signUpInputStateType) : UserInputType :=
  {| new_username := trim (username i); new_password := trim (password i) |}.

(** What the user does: type into one of the inputs, or click the submit
    button. *)
Inductive Event : Type :=
| Change (name : FieldName) (value : list ascii)
| ClickSubmit.

(** One invocation of [handleSignup]: the input state it read and the
    request it made. *)
Record Invocation : Type := {
  inv_state : signUpInputStateType;
  inv_request : UserInputType;
}.

(** The component after mount: initial state, first render, effect. *)
Definition init : State :=
  effect {| inputState := CONTROL_INPUT_STATE; isDisabled := true |}.

(** One event. A change sets the input state, the component renders again
    and the effect runs. A click on a disabled button does nothing; on an
    enabled one it runs [handleSignup]. *)
Definition step (st : State) (ev : Event) : State * list Invocation :=
  match ev with
  | Change name value =>
      (effect {| inputState := handleInput name value (inputState st);
                 isDisabled := isDisabled st |}, [])
  | ClickSubmit =>
      if isDisabled st then (st, [])
      else (st, [ {| inv_state := inputState st;
                     inv_request := handleSignup (inputState st) |} ])
  end.

(** A session: the state reached and the invocations of [handleSignup], in
    order. *)
Fixpoint run (st : State) (evs : list Event) : State * list Invocation :=
  match evs with
  | [] => (st, [])
  | ev :: evs' =>
      let '(st1, out1) := step st ev in
      let '(st2, out2) := run st1 evs' in
      (st2, out1 ++ out2)
  end.

(** The condition under which the button is to be disabled. *)
Definition incomplete (i : signUpInputStateType) : Prop :=
  password i <> cnfPassword i \/ password i = [] \/ cnfPassword i = []
  \/ username i = [].

(** What an invocation of [handleSignup] is said to be like. *)
Definition complete_and_trimmed (inv : Invocation) : Prop :=
  username (inv_state inv) <> []
  /\ password (inv_state inv) <> []
  /\ password (inv_state inv) = cnfPassword (inv_state inv)
  /\ inv_request inv
     = {| new_username := trim (username (inv_state inv));
          new_password := trim (password (inv_state inv)) |}.

(** The button state agrees with the input state. *)
Definition synced (st : State) : Prop :=
  isDisabled st = true <-> incomplete (inputState st).

End SignUp.

(** ** components/core/flowToolbarComponent/components/deploy-dropdown.tsx *)

Module Deploy.

Section Dropdown.
(** [FlowType] with the field the handler reads. *)
Context {FlowType : Type}.
Variable flow_id : FlowType -> string.
Variable t : string -> string.

Record ErrorData : Type := {
  title : string;
  list_ : list string;
}.

(** Modelled from the spec: the global stores ([useFlowsManagerStore],
    [useFlowStore], [useAlertStore]) are not among the sources; the spec
    describes them as store objects holding UI state (current flow, error
    banners) and exposing selector-style getters and setters, so each setter
    below assigns its field and touches nothing else. *)
Record Stores : Type := {
  flows : option (list FlowType);
  currentFlow : option FlowType;
  errorData : option ErrorData;
}.

Definition setFlows (fs : list FlowType) (st : Stores) : Stores :=
  {| flows := Some fs; currentFlow := currentFlow st;
     errorData := errorData st |}.

Definition setCurrentFlow (f : FlowType) (st : Stores) : Stores :=
  {| flows := flows st; currentFlow := Some f; errorData := errorData st |}.

Definition setErrorData (e : ErrorData) (st : Stores) : Stores :=
  {| flows := flows st; currentFlow := currentFlow st; errorData := Some e |}.



(** The function mapped over [flows]. *)
Definition replace_flow (updatedFlow flow : FlowType) : FlowType :=
  if String.eqb (flow_id flow) (flow_id updatedFlow) then updatedFlow
  else flow.

(** The [onSuccess] callback; [flows_seen] is the [flows] the component read
    from the store at the render the callback was created in. *)
Definition onSuccess (flows_seen : option (list FlowType))
    (updatedFlow : FlowType) (st : Stores) : Stores :=
  match flows_seen with
  | Some fl =>
      setCurrentFlow updatedFlow
        (setFlows (map (replace_flow updatedFlow) fl) st)
  | None =>
      setErrorData
        {| title := t "flow.share.error.saveFailedTitle";
           list_ := [t "flow.share.error.flowsUndefined"] |}
        st
  end.

(** The [onError] callback. *)
Definition onError (message : string) (st : Stores) : Stores :=
  setErrorData
    {| title := t "flow.share.error.saveFailedTitle"; list_ := [message] |}
    st.

(** The alert raised when the flows are undefined. *)
Definition flows_undefined_alert : ErrorData :=
  {| title := t "flow.share.error.saveFailedTitle";
     list_ := [t "flow.share.error.flowsUndefined"] |}.

End Dropdown.

Arguments Stores FlowType : clear implicits.
End Deploy.

(** ** stores/i18nStore.ts and types/zustand/i18n.ts *)

Module I18nStore.
Import JsStr.

(** The double quote and the backslash. *)
Definition dquote : ascii := ascii_of_N 34.
Definition backslash : ascii := ascii_of_N 92.

(** *** [JSON.stringify] and [JSON.parse] on strings *)

(** A lowercase hexadecimal digit. *)
Definition hex_digit (n : N) : ascii :=
  if (n <? 10)%N then ascii_of_N (48 + n) else ascii_of_N (87 + n).

Definition hex_value (c : ascii) : option N :=
  let n := code c in
  if ((48 <=? n) && (n <=? 57))%N then Some (n - 48)%N
  else if ((97 <=? n) && (n <=? 102))%N then Some (n - 87)%N
  else if ((65 <=? n) && (n <=? 70))%N then Some (n - 55)%N
  else None.

(** How [JSON.stringify] writes one character of a string: the short
    escapes, a [\u] escape for the other control characters, the character
    itself otherwise. *)
Definition quote_char (c : ascii) : list ascii :=
  let n := code c in
  if (n =? 8)%N then [backslash; "b"%char]
  else if (n =? 9)%N then [backslash; "t"%char]
  else if (n =? 10)%N then [backslash; "n"%char]
  else if (n =? 12)%N then [backslash; "f"%char]
  else if (n =? 13)%N then [backslash; "r"%char]
  else if (n =? 34)%N then [backslash; dquote]
  else if (n =? 92)%N then [backslash; backslash]
  else if (n <? 32)%N then
    [backslash; "u"%char; "0"%char; "0"%char;
     hex_digit (n / 16); hex_digit (n mod 16)]
  else [c].

(** [JSON.stringify(s)] for a string [s]. *)
Definition JSON_stringify (s : list ascii) : list ascii :=
  dquote :: flat_map quote_char s ++ [dquote].

(** The characters of a JSON string after its opening quote: the value and
    what follows the closing quote. A [\u] escape above 0xFF has no
    counterpart among the code units of this model and is refused. *)
Fixpoint parse_chars (s : list ascii) : option (list ascii * list ascii) :=
  match s with
  | [] => None
  | c :: s1 =>
      if Ascii.eqb c dquote then Some ([], s1)
      else if Ascii.eqb c backslash then
        match s1 with
        | [] => None
        | e :: s2 =>
            let simple (x : ascii) :=
              match parse_chars s2 with
              | Some (v, rest) => Some (x :: v, rest)
              | None => None
              end in
            if Ascii.eqb e dquote then simple dquote
            else if Ascii.eqb e backslash then simple backslash
            else if Ascii.eqb e "/" then simple "/"%char
            else if Ascii.eqb e "b" then simple (ascii_of_N 8)
            else if Ascii.eqb e "f" then simple (ascii_of_N 12)
            else if Ascii.eqb e "n" then simple (ascii_of_N 10)
            else if Ascii.eqb e "r" then simple (ascii_of_N 13)
            else if Ascii.eqb e "t" then simple (ascii_of_N 9)
            else if Ascii.eqb e "u" then
              match s2 with
              | h1 :: h2 :: h3 :: h4 :: s3 =>
                  match hex_value h1, hex_value h2, hex_value h3, hex_value h4 with
                  | Some a, Some b, Some c', Some d =>
                      let n := (((a * 16 + b) * 16 + c') * 16 + d)%N in
                      if (n <? 256)%N then
                        match parse_chars s3 with
                        | Some (v, rest) => Some (ascii_of_N n :: v, rest)
                        | None => None
                        end
                      else None
                  | _, _, _, _ => None
                  end
              | _ => None
              end
            else None
        end
      else if (code c <? 32)%N then None
      else
        match parse_chars s1 with
        | Some (v, rest) => Some (c :: v, rest)
        | None => None
        end
  end.

(** JSON white space: space, TAB, LF, CR. *)
Definition is_json_ws (c : ascii) : bool :=
  let n := code c in ((n =? 32) || (n =? 9) || (n =? 10) || (n =? 13))%N.

Fixpoint skip_ws (s : list ascii) : list ascii :=
  match s with
  | [] => []
  | c :: s' => if is_json_ws c then skip_ws s' else s
  end.

(** What [JSON.parse] makes of a text, as far as strings go. *)
Inductive Parsed : Type :=
| ParsedString (s : list ascii)
| NotAString.  (* a SyntaxError, or a value that is not a string *)

Definition JSON_parse (text : list ascii) : Parsed :=
  match skip_ws text with
  | c :: s =>
      if Ascii.eqb c dquote then
        match parse_chars s with
        | Some (v, rest) =>
            match skip_ws rest with
            | [] => ParsedString v
            | _ :: _ => NotAString
            end
        | None => NotAString
        end
      else NotAString
  | [] => NotAString
  end.

(** *** The browser *)

(** [window.localStorage] *)
Abbreviation Storage := (gmap string (list ascii)).

Definition getItem (key : string) (ls : Storage) : option (list ascii) :=
  ls !! key.

Definition setItem (key : string) (value : list ascii) (ls : Storage)
  : Storage := <[key := value]> ls.

Record Navigator : Type := {
  language : list ascii;
  languages : list (list ascii);
}.

(** *** The store *)

(** [type Language = 'en' | 'zh'] *)
Inductive Language : Type := en | zh.

Definition Language_value (l : Language) : list ascii :=
  match l with
  | en => js "en"
  | zh => js "zh"
  end.

(** Whether a string is a value of the type [Language]. *)
Definition is_Language (s : list ascii) : bool :=
  bool_decide (s = js "en") || bool_decide (s = js "zh").

(** The state of the store: the type says [lang: Language], at run time it
    is whatever string was put there. *)
Record I18nType : Type := { lang : list ascii }.

(** How the initializer of [lang] ends. *)
Inductive Initial : Type :=
| LangIs (l : list ascii)
| StoredNotAString   (* [JSON.parse(stored)] threw or gave no string *)
| LangUndefined      (* [split] gave no first piece *)
| ThrowsTypeError.   (* [split] called on [undefined] *)

(** The immediately invoked function that initializes [lang]. *)
Definition initial_lang (ls : Storage) (nav : Navigator) : Initial :=
  match getItem "language" ls with
  | Some stored =>
      match JSON_parse stored with
      | ParsedString l => LangIs l
      | NotAString => StoredNotAString
      end
  | None =>
      let browserLanguage :=
        match language nav with
        | _ :: _ => Some (language nav)
        | [] => languages nav !! 0
        end in
      match browserLanguage with
      | Some b =>
          match split "-" b with
          | detectedLanguage :: _ => LangIs detectedLanguage
          | [] => LangUndefined
          end
      | None => ThrowsTypeError
      end
  end.

(** [setLanguage(lang)] on the local storage and the store. *)
Definition setLanguage (l : list ascii) (w : Storage * I18nType)
  : Storage * I18nType :=
  (setItem "language" (JSON_stringify l) w.1, {| lang := l |}).

(** The initial language as the browser language alone would give it: the
    part of [navigator.language] before the first hyphen. *)
Definition lang_of_navigator_language (nav : Navigator) : Initial :=
  LangIs (before_first "-" (language nav)).

End I18nStore.

(** ** constants/constants.ts: [regexHighlight] *)

Module Regex.

(** The regular expressions the constant is made of. Quantifiers apply to
    single characters, as they do in the source. *)
Inductive regex : Type :=
| Chr (p : ascii -> bool)        (* one character: a literal or a class *)
| Seq (r1 r2 : regex)
| Alt (r1 r2 : regex)
| LazyStar (p : ascii -> bool)   (* [c*?] *)
| GreedyPlus (p : ascii -> bool) (* [c+] *)
| Group (n : nat) (r : regex).   (* the [n]-th capturing group *)

(** The captures: group number to captured text; an absent group is
    [undefined]. *)
Abbreviation Captures := (gmap nat (list ascii)).

(** The remainders [c*?] may leave, in the order tried: shortest match
    first. *)
Fixpoint lazy_star (p : ascii -> bool) (s : list ascii) : list (list ascii) :=
  s :: match s with
       | c :: s' => if p c then lazy_star p s' else []
       | [] => []
       end.

(** The remainders [c*] may leave: longest match first. *)
Fixpoint greedy_star (p : ascii -> bool) (s : list ascii)
  : list (list ascii) :=
  match s with
  | c :: s' => if p c then greedy_star p s' ++ [s] else [s]
  | [] => [[]]
  end.

Definition greedy_plus (p : ascii -> bool) (s : list ascii)
  : list (list ascii) :=
  match s with
  | c :: s' => if p c then greedy_star p s' else []
  | [] => []
  end.

(** Backtracking matching at the start of [s]: every way [r] matches a
    prefix of [s], as the remainder and the captures, in the order a
    backtracking matcher tries them. *)
Fixpoint matcher (r : regex) (s : list ascii) (caps : Captures)
  : list (list ascii * Captures) :=
  match r with
  | Chr p =>
      match s with
      | c :: s' => if p c then [(s', caps)] else []
      | [] => []
      end
  | Seq r1 r2 => flat_map (fun x => matcher r2 x.1 x.2) (matcher r1 s caps)
  | Alt r1 r2 => matcher r1 s caps ++ matcher r2 s caps
  | LazyStar p => map (fun s' => (s', caps)) (lazy_star p s)
  | GreedyPlus p => map (fun s' => (s', caps)) (greedy_plus p s)
  | Group n r =>
      map (fun x => (x.1, <[n := take (length s - length x.1) s]> x.2))
          (matcher r s caps)
  end.

(** A match: where it starts, the matched text, the captures, and the
    remainder of the input after it. *)
Record Match : Type := {
  index : nat;
  whole : list ascii;
  groups : Captures;
  after : list ascii;
}.

(** [exec]: the first position from [i] on at which [r] matches, with the
    first way it matches there. *)
Fixpoint exec (r : regex) (i : nat) (s : list ascii) : option Match :=
  match matcher r s ∅ with
  | (rest, caps) :: _ =>
      Some {| index := i; whole := take (length s - length rest) s;
              groups := caps; after := rest |}
  | [] =>
      match s with
      | [] => None
      | _ :: s' => exec r (S i) s'
      end
  end.

(** All matches of a global regular expression, as [replace] and [matchAll]
    enumerate them: the search resumes where the last match ended, one
    character further after an empty match. *)
Fixpoint matchAll_fuel (fuel : nat) (r : regex) (i : nat) (s : list ascii)
  : list Match :=
  match fuel with
  | 0 => []
  | S fuel' =>
      match exec r i s with
      | None => []
      | Some mt =>
          mt ::
          match whole mt, after mt with
          | [], [] => []
          | [], _ :: s' => matchAll_fuel fuel' r (S (index mt)) s'
          | _ :: _, s' =>
              matchAll_fuel fuel' r (index mt + length (whole mt)) s'
          end
      end
  end.

Definition matchAll (r : regex) (s : list ascii) : list Match :=
  matchAll_fuel (S (length s)) r 0 s.

(** *** The constant *)

Definition backtick : ascii := "`"%char.
Definition lbrace : ascii := "{"%char.
Definition rbrace : ascii := "}"%char.

Definition lit (c : ascii) : regex := Chr (Ascii.eqb c).
(** [[\s\S]] *)
Definition any_char : ascii -> bool := fun _ => true.
(** [[^{}]] *)
Definition not_brace (c : ascii) : bool :=
  negb (Ascii.eqb c lbrace || Ascii.eqb c rbrace).

(** Three backticks. *)
Definition fence : regex := Seq (lit backtick) (Seq (lit backtick) (lit backtick)).

(** [/(```[\s\S]*?```)|(\{+)([^{}]+)(\}+)/g] *)
Definition regexHighlight : regex :=
  Alt (Group 1 (Seq fence (Seq (LazyStar any_char) fence)))
      (Seq (Group 2 (GreedyPlus (Ascii.eqb lbrace)))
           (Seq (Group 3 (GreedyPlus not_brace))
                (Group 4 (GreedyPlus (Ascii.eqb rbrace))))).

(** The arguments [p1] to [p4] of a replacer function. *)
Definition p1 (mt : Match) : option (list ascii) := groups mt !! 1.
Definition p2 (mt : Match) : option (list ascii) := groups mt !! 2.
Definition p3 (mt : Match) : option (list ascii) := groups mt !! 3.
Definition p4 (mt : Match) : option (list ascii) := groups mt !! 4.

(** A run of characters satisfying [p] ends before [rest]: the input ends,
    or its next character does not satisfy [p]. *)
Definition stops (p : ascii -> bool) (rest : list ascii) : Prop :=
  match rest with
  | [] => True
  | c :: _ => p c = false
  end.

(** *** What a match is said to be *)

(** The words a regular expression matches and what it captures on the way:
    [Matches r w c c'] when [r] matches exactly [w], turning the captures
    [c] into [c']. *)
Inductive Matches : regex -> list ascii -> Captures -> Captures -> Prop :=
| M_Chr p c caps :
    p c = true -> Matches (Chr p) [c] caps caps
| M_Seq r1 r2 w1 w2 c0 c1 c2 :
    Matches r1 w1 c0 c1 -> Matches r2 w2 c1 c2 ->
    Matches (Seq r1 r2) (w1 ++ w2) c0 c2
| M_Alt_l r1 r2 w c0 c1 :
    Matches r1 w c0 c1 -> Matches (Alt r1 r2) w c0 c1
| M_Alt_r r1 r2 w c0 c1 :
    Matches r2 w c0 c1 -> Matches (Alt r1 r2) w c0 c1
| M_LazyStar p w caps :
    Forall (fun c => p c = true) w -> Matches (LazyStar p) w caps caps
| M_GreedyPlus p w caps :
    w <> [] -> Forall (fun c => p c = true) w ->
    Matches (GreedyPlus p) w caps caps
| M_Group n r w c0 c1 :
    Matches r w c0 c1 -> Matches (Group n r) w c0 (<[n := w]> c1).

(** A fenced code block: it begins and ends with three backticks (six at
    least in all). *)
Definition is_fenced_block (w : list ascii) : Prop :=
  exists body, w = js "```" ++ body ++ js "```".

(** A variable in braces: a run of opening braces, a name without braces,
    a run of closing braces, none of them empty. *)
Definition is_braced_variable (w opening name closing : list ascii) : Prop :=
  w = opening ++ name ++ closing
  /\ opening <> [] /\ Forall (fun c => c = lbrace) opening
  /\ name <> [] /\ Forall (fun c => c <> lbrace /\ c <> rbrace) name
  /\ closing <> [] /\ Forall (fun c => c = rbrace) closing.

(** The two kinds of match. *)
Definition fenced_or_variable (mt : Match) : Prop :=
  (p1 mt = Some (whole mt) /\ is_fenced_block (whole mt)
   /\ p2 mt = None /\ p3 mt = None /\ p4 mt = None)
  \/ (p1 mt = None
      /\ exists opening name closing,
          p2 mt = Some opening /\ p3 mt = Some name /\ p4 mt = Some closing
          /\ is_braced_variable (whole mt) opening name closing).

End Regex.

(** ** Where the matches of a global regular expression lie *)

Module MatchOrder.
Import Regex.

(** The match is the text of [s] at its index. *)
Definition located (s : list ascii) (mt : Match) : Prop :=
  take (length (whole mt)) (drop (index mt) s) = whole mt.

(** The matches come in order and do not overlap: each starts at or after
    position [i], the next ones at or after its end. *)
Fixpoint ordered_from (i : nat) (l : list Match) : Prop :=
  match l with
  | [] => True
  | mt :: l' =>
      i <= index mt /\ ordered_from (index mt + length (whole mt)) l'
  end.

End MatchOrder.

(** ** components/core/appHeaderComponent/components/langflow-counts.tsx:
       the language menu *)

Module LanguageMenu.
Import I18nStore.

#[global]
Instance Language_eq_dec : EqDecision Language.
Proof. solve_decision. Defined.

(** [lang == 'en'], [lang == 'zh']: whether the store's language is the one
    of the menu item. *)
Definition selected (item : Language) (lang : list ascii) : bool :=
  bool_decide (lang = Language_value item).


(** The [onClick] of an item:
    [if (lang != 'en') { setLanguage('en') }] and the same for 'zh'. *)
Definition onClick (item : Language) (w : Storage * I18nType)
  : Storage * I18nType :=
  if negb (selected item (lang w.2)) then setLanguage (Language_value item) w
  else w.

(** A series of clicks on menu items. *)
Definition clicks (w : Storage * I18nType) (items : list Language)
  : Storage * I18nType :=
  foldl (fun w item => onClick item w) w items.


End LanguageMenu.

(** ** pages/AdminPage/index.tsx: pagination and the user actions *)

Module AdminActions.

Definition PAGINATION_SIZE : Z := 12.
Definition PAGINATION_PAGE : Z := 1.

(** The fields of a user the page reads. *)
Record UserRecord : Type := {
  id : string;
  username : list ascii;
  is_active : bool;
  is_superuser : bool;
  create_at : string;
  updated_at : string;
}.

(** The user the new-user dialog hands over ([CONTROL_NEW_USER] gives its
    fields). *)
Record NewUser : Type := {
  nu_username : list ascii;
  nu_password : list ascii;
  nu_is_active : bool;
  nu_is_superuser : bool;
}.

(** The two pieces of state behind the paginator. *)
Record Paging : Type := {
  size : Z;
  index : Z;
}.

Section Page.
(** What the edit dialog hands over. *)
Context {EditedUser : Type}.
Variable t : string -> string.

(** The [user] of an update request. *)
Inductive UserPatch : Type :=
| WholeUser (u : UserRecord)
| EditedFields (e : EditedUser)
| Flags (active superuser : bool).

(** The requests of the page; an id read off a response may be
    [undefined]. *)
Inductive Request : Type :=
| GetUsers (skip limit : Z)
| DeleteUser (user_id : string)
| UpdateUser (user_id : option string) (user : UserPatch)
| AddUser (user : NewUser).

Inductive Response : Type :=
| RUsers (total_count : Z) (users : list UserRecord)
| RUser (id : string)
| ROk.

(** A failed request: with a response that carries a detail, or with no
    response at all (the server was not reached). *)
Inductive Err : Type :=
| ErrDetail (detail : string)
| ErrNoResponse.

(** [res["id"]] *)
Definition res_id (r : Response) : option string :=
  match r with
  | RUser i => Some i
  | _ => None
  end.

(** [users["total_count"]] and [users["users"]] *)
Definition res_total_count (r : Response) : option Z :=
  match r with
  | RUsers n _ => Some n
  | _ => None
  end.
Definition res_users (r : Response) : option (list UserRecord) :=
  match r with
  | RUsers _ l => Some l
  | _ => None
  end.

(** What a handler does to the page (a value read off a response may be
    [undefined]). *)
Inductive Action : Type :=
| SetPageIndex (i : Z)
| SetPageSize (n : Z)
| SetTotalRowsCount (n : option Z)
| AssignUserList (users : option (list UserRecord))
| SetFilterUserList (users : option (list UserRecord))
| SetSuccessData (title : string)
| SetErrorData (title : string) (list : list string).

(** A handler: actions, and mutations with their callbacks; [k] is the code
    that follows a call, which runs before any callback does. *)
Inductive Prog : Type :=
| Done
| Throw
| Do (a : Action) (k : Prog)
| Mutate (rq : Request) (onSuccess : Response -> Prog) (onError : Err -> Prog)
         (k : Prog).

(** [p; q] *)
Fixpoint seq (p q : Prog) : Prog :=
  match p with
  | Done => q
  | Throw => Throw
  | Do a k => Do a (seq k q)
  | Mutate rq s e k => Mutate rq s e (seq k q)
  end.

(** The [onSuccess] of the two user queries. *)
Definition onUsers (users : Response) : Prog :=
  Do (SetTotalRowsCount (res_total_count users))
    (Do (AssignUserList (res_users users))
       (Do (SetFilterUserList (res_users users)) Done)).

(** [getUsers], in a render where the state is [render]. *)
Definition getUsers (render : Paging) : Prog :=
  Mutate (GetUsers (size render * (index render - 1)) (size render))
         onUsers (fun _ => Done) Done.

(** [handleChangePagination]; it gives no [onError]. *)
Definition handleChangePagination (pageIndex pageSize : Z) : Prog :=
  Do (SetPageSize pageSize)
    (Do (SetPageIndex pageIndex)
       (Mutate (GetUsers (pageSize * (pageIndex - 1)) pageSize)
               onUsers (fun _ => Done) Done)).

Definition resetFilter (render : Paging) : Prog :=
  Do (SetPageIndex PAGINATION_PAGE)
    (Do (SetPageSize PAGINATION_SIZE) (getUsers render)).

(** [setErrorData({ title, list: [error["response"]["data"]["detail"]] })]:
    reading the detail of an error without response throws. *)
Definition alertError (title : string) (error : Err) : Prog :=
  match error with
  | ErrDetail detail => Do (SetErrorData title [detail]) Done
  | ErrNoResponse => Throw
  end.

(** [resetFilter(); setSuccessData({ title })] *)
Definition refreshAndAlert (render : Paging) (title : string) : Prog :=
  seq (resetFilter render) (Do (SetSuccessData title) Done).

Definition handleDeleteUser (render : Paging) (user : UserRecord) : Prog :=
  Mutate (DeleteUser (id user))
         (fun _ => refreshAndAlert render (t "alerts.success.userDel"))
         (alertError (t "alerts.error.userDel"))
         Done.

Definition handleEditUser (render : Paging) (userId : string)
    (user : UserPatch) : Prog :=
  Mutate (UpdateUser (Some userId) user)
         (fun _ => refreshAndAlert render (t "alerts.success.userEdit"))
         (alertError (t "alerts.error.userEdit"))
         Done.

(** [const userEdit = cloneDeep(user); userEdit.is_active = !check] *)
Definition handleDisableUser (render : Paging) (check : bool)
    (userId : string) (user : UserRecord) : Prog :=
  let userEdit :=
    {| id := id user; username := username user;
       is_active := negb check; is_superuser := is_superuser user;
       create_at := create_at user; updated_at := updated_at user |} in
  handleEditUser render userId (WholeUser userEdit).

(** [const userEdit = cloneDeep(user); userEdit.is_superuser = !check] *)
Definition handleSuperUserEdit (render : Paging) (check : bool)
    (userId : string) (user : UserRecord) : Prog :=
  let userEdit :=
    {| id := id user; username := username user;
       is_active := is_active user; is_superuser := negb check;
       create_at := create_at user; updated_at := updated_at user |} in
  handleEditUser render userId (WholeUser userEdit).

Definition handleNewUser (render : Paging) (user : NewUser) : Prog :=
  Mutate (AddUser user)
         (fun res =>
            Mutate (UpdateUser (res_id res)
                      (Flags (nu_is_active user) (nu_is_superuser user)))
                   (fun _ => refreshAndAlert render (t "alerts.success.userAdd"))
                   (alertError (t "alerts.error.userAdd"))
                   Done)
         (alertError (t "alerts.error.userAdd"))
         Done.

(** The user actions as the table and the dialogs start them. *)
Inductive UserAction : Type :=
| ConfirmDelete (user : UserRecord)
| ConfirmEdit (user : UserRecord) (editUser : EditedUser)
| ConfirmDisable (user : UserRecord)
| ConfirmSuperUser (user : UserRecord)
| ConfirmNew (user : NewUser).

Definition start (render : Paging) (a : UserAction) : Prog :=
  match a with
  | ConfirmDelete user => handleDeleteUser render user
  | ConfirmEdit user editUser =>
      handleEditUser render (id user) (EditedFields editUser)
  | ConfirmDisable user =>
      handleDisableUser render (is_active user) (id user) user
  | ConfirmSuperUser user =>
      handleSuperUserEdit render (is_superuser user) (id user) user
  | ConfirmNew user => handleNewUser render user
  end.

(** What is seen of a handler from outside. *)
Inductive Event : Type :=
| Req (rq : Request)
| Act (a : Action)
| Threw.

Definition Server : Type := Request -> Err + Response.

(** Running a handler against a server: the call is made, the code after it
    runs, then the callback for the answer. *)
Fixpoint run (srv : Server) (p : Prog) : list Event :=
  match p with
  | Done => []
  | Throw => [Threw]
  | Do a k => Act a :: run srv k
  | Mutate rq onSuccess onError k =>
      Req rq :: run srv k ++
      match srv rq with
      | inr response => run srv (onSuccess response)
      | inl error => run srv (onError error)
      end
  end.

(** The events that tell the user how an action ended. *)
Definition is_success (e : Event) : bool :=
  match e with Act (SetSuccessData _) => true | _ => false end.
Definition is_error (e : Event) : bool :=
  match e with Act (SetErrorData _ _) => true | _ => false end.
Definition is_throw (e : Event) : bool :=
  match e with Threw => true | _ => false end.
Definition is_refetch (e : Event) : bool :=
  match e with Req (GetUsers _ _) => true | _ => false end.
Definition is_own_request (e : Event) : bool :=
  match e with
  | Req (GetUsers _ _) => false
  | Req _ => true
  | _ => false
  end.

(** The requests an action makes of its own (the refetch apart), in order,
    as far as they get answered. *)
Definition own_requests (a : UserAction) (srv : Server) : list Request :=
  match a with
  | ConfirmDelete user => [DeleteUser (id user)]
  | ConfirmEdit user editUser =>
      [UpdateUser (Some (id user)) (EditedFields editUser)]
  | ConfirmDisable user =>
      [UpdateUser (Some (id user))
         (WholeUser {| id := id user; username := username user;
                       is_active := negb (is_active user);
                       is_superuser := is_superuser user;
                       create_at := create_at user;
                       updated_at := updated_at user |})]
  | ConfirmSuperUser user =>
      [UpdateUser (Some (id user))
         (WholeUser {| id := id user; username := username user;
                       is_active := is_active user;
                       is_superuser := negb (is_superuser user);
                       create_at := create_at user;
                       updated_at := updated_at user |})]
  | ConfirmNew user =>
      AddUser user ::
      match srv (AddUser user) with
      | inr res =>
          [UpdateUser (res_id res)
             (Flags (nu_is_active user) (nu_is_superuser user))]
      | inl _ => []
      end
  end.

(** The first failure among some requests. *)
Fixpoint first_failure (srv : Server) (rqs : list Request) : option Err :=
  match rqs with
  | [] => None
  | rq :: rqs' =>
      match srv rq with
      | inl e => Some e
      | inr _ => first_failure srv rqs'
      end
  end.

(** The titles of the alerts of an action. *)
Definition success_title (a : UserAction) : string :=
  match a with
  | ConfirmDelete _ => t "alerts.success.userDel"
  | ConfirmNew _ => t "alerts.success.userAdd"
  | _ => t "alerts.success.userEdit"
  end.
Definition error_title (a : UserAction) : string :=
  match a with
  | ConfirmDelete _ => t "alerts.error.userDel"
  | ConfirmNew _ => t "alerts.error.userAdd"
  | _ => t "alerts.error.userEdit"
  end.

(** The refetch of [getUsers] in a render. *)
Definition refetch_of (render : Paging) : Request :=
  GetUsers (size render * (index render - 1)) (size render).


End Page.

Arguments UserPatch EditedUser : clear implicits.
Arguments Request EditedUser : clear implicits.
Arguments Prog EditedUser : clear implicits.
Arguments Event EditedUser : clear implicits.
Arguments Server EditedUser : clear implicits.
Arguments UserAction EditedUser : clear implicits.
End AdminActions.

From stdpp Require Import pretty.

(** ** More methods of JavaScript strings and arrays *)

Module JsList.
Import JsStr.

(** [pieces.join(sep)] for a separator of one character. *)
Fixpoint join (sep : ascii) (pieces : list (list ascii)) : list ascii :=
  match pieces with
  | [] => []
  | piece :: rest =>
      match rest with
      | [] => piece
      | _ :: _ => piece ++ sep :: join sep rest
      end
  end.

(** How often a character occurs. *)
Fixpoint occurrences (c : ascii) (s : list ascii) : nat :=
  match s with
  | [] => 0
  | x :: s' => (if Ascii.eqb x c then 1 else 0) + occurrences c s'
  end.

End JsList.

(** ** deploy-dropdown.tsx: the publish switch *)

Module PublishSwitch.
Import Deploy.

Section Switch.
Context {FlowType : Type}.
Variable flow_id : FlowType -> string.
Variable flow_access_type : FlowType -> string.




End Switch.
End PublishSwitch.

(** ** The context menu of a file (FilesContextMenuComponent) *)

Module FilesMenu.
Import JsStr.

Definition dot : ascii := "."%char.

(** The [type] given to [useDuplicateFileV2]:
    [file.path.split(".").pop() || ""]. *)
Definition file_type (path : list ascii) : list ascii :=
  match last (split dot path) with
  | Some piece => piece
  | None => []
  end.

End FilesMenu.

(** ** CustomNodes/GenericNode/components/HandleTooltipComponent *)

Module HandleTooltip.
Import React JsStr.

Definition newline : ascii := ascii_of_N 10.

Section Component.
Context {F : Type}.
Variable t : string -> string.
(** [nodeColorsName] of utils/styleUtils: the colour name of a type, if it
    has one. *)
Variable nodeColorsName : list ascii -> option string.
(** [convertTestName] of the store card utilities. *)
Variable convertTestName : list ascii -> string.

Record Props : Type := {
  isInput : bool;
  tooltipTitle : list ascii;
  isConnecting : bool;
  isCompatible : bool;
  isSameNode : bool;
  left : bool;
}.

(** [const tooltips = tooltipTitle.split("\n")] *)
Definition tooltips (p : Props) : list (list ascii) :=
  split newline (tooltipTitle p).

(** [const plural = tooltips.length > 1] *)
Definition plural (p : Props) : bool := 1 <? length (tooltips p).

(** A value inside a template literal: [undefined] prints as such. *)
Definition interpolated (v : option string) : string :=
  match v with
  | Some s => s
  | None => "undefined"
  end.

Definition datatype_color (word : list ascii) : string :=
  "hsl(var(--datatype-" +:+ interpolated (nodeColorsName word) +:+ "))".
Definition datatype_foreground (word : list ascii) : string :=
  "hsl(var(--datatype-" +:+ interpolated (nodeColorsName word)
  +:+ "-foreground))".

(** One badge; the two entries of its [style] object are written as the
    attributes style.backgroundColor and style.color. *)
Definition Badge (p : Props) (index : nat) (word : list ascii) : Element F :=
  Elem "Badge"
    [("className", AStr "h-6 rounded-md p-1");
     ("key", AStr (pretty index +:+ "-"
                   +:+ string_of_list_ascii (toLowerCase word)));
     ("style.backgroundColor",
      AStr (if left p then datatype_color word
            else datatype_foreground word));
     ("style.color",
      AStr (if left p then datatype_foreground word
            else datatype_color word));
     ("data-testid",
      AStr ((if isInput p then "input" else "output") +:+ "-tooltip-"
            +:+ convertTestName word))]
    [Text (string_of_list_ascii word)].

(** What stands before the badges. *)
Definition Lead (p : Props) : Element F :=
  if isConnecting p then
    if isCompatible p then
      Elem "span" []
        [Elem "span" [("className", AStr "font-semibold")]
           [Text (t "components.handle.connectTo")];
         Text " ";
         Text (t "components.handle.to")]
    else Elem "span" [] [Text (t "components.handle.incompatibleWith")]
  else
    Elem "span" [("className", AStr "text-xs")]
      [Text (if isInput p then
               if plural p then t "components.handle.inputTypes"
               else t "components.handle.inputType"
             else
               if plural p then t "components.handle.outputTypes"
               else t "components.handle.outputType");
       Text ":";
       Text " "].

(** The help lines shown while no connection is being drawn. *)
Definition Help (p : Props) : Element F :=
  Elem "div"
    [("className", AStr "mt-2 flex flex-col gap-0.5 text-xs leading-6")]
    [Elem "div" []
       [Elem "b" [] [Text (t "common.copy")];
        Text " ";
        Text (t "components.handle.dragToConnect");
        Text " ";
        Text (if negb (isInput p) then t "components.handle.inputs"
              else t "components.handle.outputs")];
     Elem "div" []
       [Elem "b" [] [Text (t "common.select")];
        Text " ";
        Text (t "components.handle.clickToFilter");
        Text " ";
        Text (if negb (isInput p) then t "components.handle.inputs"
              else t "components.handle.outputs");
        Text " ";
        Text (t "components.handle.andComponents")]].

Definition HandleTooltipComponent (p : Props) : Element F :=
  Elem "div" [("className", AStr "font-medium")]
    ((if isSameNode p then
        Text (t "components.handle.cantConnectSameNode")
      else
        Elem "div" [("className", AStr "flex items-center gap-1.5")]
          (Lead p
           :: imap (Badge p) (tooltips p)
           ++ (if isConnecting p then
                 [Elem "span" []
                    [Text (if isInput p then t "components.handle.input"
                           else t "components.handle.output")]]
               else [])))
     :: (if negb (isConnecting p) then [Help p] else [])).

(** The text a badge shows. *)
Definition badge_text (b : Element F) : list ascii :=
  match children_of b with
  | [Text s] => list_ascii_of_string s
  | _ => []
  end.

End Component.

Arguments Props : clear implicits.
End HandleTooltip.

(** ** [replace] with a global regular expression, and the test id of a
       navigation entry (modals/templatesModal/components/navComponent) *)

Module TemplatesNav.
Import JsStr Regex.

(** [s.replace(r, replacement)] for a global [r]: the text between the
    matches is kept, each match gives way to the replacement; after an empty
    match the search resumes one character further, that character kept. *)
Fixpoint replace_fuel (fuel : nat) (r : regex) (replacement : list ascii)
    (s : list ascii) : list ascii :=
  match fuel with
  | 0 => s
  | S fuel' =>
      match exec r 0 s with
      | None => s
      | Some mt =>
          take (index mt) s ++ replacement ++
          match whole mt, after mt with
          | [], [] => []
          | [], c :: s' => c :: replace_fuel fuel' r replacement s'
          | _ :: _, s' => replace_fuel fuel' r replacement s'
          end
      end
  end.

Definition replace (r : regex) (replacement : list ascii) (s : list ascii)
  : list ascii :=
  replace_fuel (S (length s)) r replacement s.

(** [/\s+/g] *)
Definition white_space_run : regex := GreedyPlus is_white_space.

(** The [data-testid] of an entry:
    [`side_nav_options_${link.title.toLowerCase().replace(/\s+/g, "-")}`] *)
Definition side_nav_testid (title : list ascii) : list ascii :=
  js "side_nav_options_"
  ++ replace white_space_run (js "-") (toLowerCase title).

(** A capital letter from A to Z. *)
Definition is_capital (c : ascii) : bool :=
  ((65 <=? code c) && (code c <=? 90))%N.

End TemplatesNav.

(** ** i18n/locale.ts: [useShortcutsLocale] *)

Module Shortcuts.
Import Hooks.

Record Shortcut : Type := {
  display_name : string;
  name : string;
  shortcut : string;
}.

(** The body of the function given to [useMemo]. *)
Definition shortcutsFactory (t : string -> string) : list Shortcut :=
  [
    {| display_name := t "shortcuts.controls"; name := "Advanced Settings"; shortcut := "mod+shift+a" |};
    {| display_name := t "shortcuts.searchComponentsSidebar"; name := "Search Components Sidebar"; shortcut := "/" |};
    {| display_name := t "shortcuts.minimize"; name := "Minimize"; shortcut := "mod+." |};
    {| display_name := t "shortcuts.code"; name := "Code"; shortcut := "space" |};
    {| display_name := t "shortcuts.copy"; name := "Copy"; shortcut := "mod+c" |};
    {| display_name := t "shortcuts.duplicate"; name := "Duplicate"; shortcut := "mod+d" |};
    {| display_name := t "shortcuts.componentShare"; name := "Component Share"; shortcut := "mod+shift+s" |};
    {| display_name := t "shortcuts.docs"; name := "Docs"; shortcut := "mod+shift+d" |};
    {| display_name := t "shortcuts.changesSave"; name := "Changes Save"; shortcut := "mod+s" |};
    {| display_name := t "shortcuts.saveComponent"; name := "Save Component"; shortcut := "mod+alt+s" |};
    {| display_name := t "shortcuts.delete"; name := "Delete"; shortcut := "backspace" |};
    {| display_name := t "shortcuts.openPlayground"; name := "Open Playground"; shortcut := "mod+k" |};
    {| display_name := t "shortcuts.undo"; name := "Undo"; shortcut := "mod+z" |};
    {| display_name := t "shortcuts.redo"; name := "Redo"; shortcut := "mod+y" |};
    {| display_name := t "shortcuts.redoAlt"; name := "Redo Alt"; shortcut := "mod+shift+z" |};
    {| display_name := t "shortcuts.group"; name := "Group"; shortcut := "mod+g" |};
    {| display_name := t "shortcuts.cut"; name := "Cut"; shortcut := "mod+x" |};
    {| display_name := t "shortcuts.paste"; name := "Paste"; shortcut := "mod+v" |};
    {| display_name := t "shortcuts.api"; name := "API"; shortcut := "r" |};
    {| display_name := t "shortcuts.download"; name := "Download"; shortcut := "mod+j" |};
    {| display_name := t "shortcuts.update"; name := "Update"; shortcut := "mod+u" |};
    {| display_name := t "shortcuts.freezePath"; name := "Freeze Path"; shortcut := "mod+shift+f" |};
    {| display_name := t "shortcuts.flowShare"; name := "Flow Share"; shortcut := "mod+shift+b" |};
    {| display_name := t "shortcuts.play"; name := "Play"; shortcut := "p" |};
    {| display_name := t "shortcuts.outputInspection"; name := "Output Inspection"; shortcut := "o" |};
    {| display_name := t "shortcuts.toolMode"; name := "Tool Mode"; shortcut := "mod+shift+m" |};
    {| display_name := t "shortcuts.toggleSidebar"; name := "Toggle Sidebar"; shortcut := "mod+b" |}
  ].

(** One call of the hook during a render; its dependency array is [[t]]. *)
Definition useShortcutsLocale (t : TFunction)
    (cell : option (MemoCell (list Shortcut)))
  : list Shortcut * option (MemoCell (list Shortcut)) :=
  useMemo (fun _ => shortcutsFactory (t_apply t)) [t_ref t] cell.

(** A function object behaves in one way: two translation functions that are
    the same object translate alike. *)
Definition same_object_same_function (ts : list TFunction) : Prop :=
  forall t1 t2, t1 ∈ ts -> t2 ∈ ts -> t_ref t1 = t_ref t2 ->
                t_apply t1 = t_apply t2.

End Shortcuts.
(** ** useColumnDefs (the columns of the node parameter table) *)

Module ColumnDefs.
Import Hooks.

(** A row of the table: [params.data]; a field may be missing. *)
Record RowData : Type := {
  row_display_name : option string;
  row_name : option string;
  row_key : string;
}.

(** What a value getter returns. *)
Inductive CellValue : Type :=
| CellText (s : string)
| CellParameter (nodeId : string) (parameterId : string)
                (isTweaks : option bool).

Record KeyboardEvent : Type := {
  key : string;
  ctrlKey : bool;
  metaKey : bool;
}.

(** The value of a property of a column definition. *)
Inductive ColValue : Type :=
| CStr (s : string)
| CBool (b : bool)
| CNum (n : Z)
| CRenderer (component : string)
| CStyle (style : list (string * string))
| CGetter (f : RowData -> CellValue)
| CSuppress (f : KeyboardEvent -> bool).

Definition ColDef : Type := list (string * ColValue).

(** An optional boolean argument used as a condition. *)
Definition truthy (b : option bool) : bool :=
  match b with
  | Some true => true
  | _ => false
  end.

(** [(display_name ? display_name : name) ?? key]: an empty display name
    counts as missing. *)
Definition display_name_getter (data : RowData) : CellValue :=
  let chosen :=
    match row_display_name data with
    | Some s => if String.eqb s "" then row_name data else Some s
    | None => row_name data
    end in
  match chosen with
  | Some s => CellText s
  | None => CellText (row_key data)
  end.

(** [key === 'a' && (ctrlKey || metaKey)] *)
Definition suppress_select_all (event : KeyboardEvent) : bool :=
  String.eqb (key event) "a" && (ctrlKey event || metaKey event).

Record Args : Type := {
  nodeId : string;
  open : bool;
  isTweaks : option bool;
  hideVisibility : option bool;
}.

(** The body of the function given to [useMemo]. *)
Definition colDefsFactory (t : string -> string) (a : Args) : list ColDef :=
  let colDefs : list ColDef :=
    [ [("headerName", CStr (t "components.table.column.fileName"));
       ("field", CStr "display_name");
       ("valueGetter", CGetter display_name_getter);
       ("wrapText", CBool true);
       ("autoHeight", CBool true);
       ("flex", CNum 1);
       ("resizable", CBool false);
       ("cellClass",
        CStr "no-border cursor-default text-muted-foreground !py-1")];
      [("headerName", CStr (t "components.table.column.description"));
       ("field", CStr "info");
       ("tooltipField", CStr "info");
       ("wrapText", CBool true);
       ("autoHeight", CBool true);
       ("flex", CNum 2);
       ("resizable", CBool false);
       ("cellClass",
        CStr "no-border cursor-default text-muted-foreground !py-1")];
      [("headerName",
        CStr (if truthy (isTweaks a)
              then t "components.table.column.currentValue"
              else t "components.table.column.value"));
       ("field", CStr "value");
       ("cellRenderer", CRenderer "TableNodeCellRender");
       ("cellStyle",
        CStyle [("display", "flex"); ("justify-content", "flex-start");
                ("align-items", "flex-start")]);
       ("valueGetter",
        CGetter (fun data =>
                   CellParameter (nodeId a) (row_key data) (isTweaks a)));
       ("suppressKeyboardEvent", CSuppress suppress_select_all);
       ("minWidth", CNum 340);
       ("autoHeight", CBool true);
       ("flex", CNum 1);
       ("resizable", CBool false);
       ("cellClass", CStr "no-border cursor-default !py-1")] ] in
  if negb (truthy (hideVisibility a)) then
    [("headerName",
      CStr (if truthy (isTweaks a)
            then t "components.table.column.exposeInput"
            else t "components.table.column.show"));
     ("field", CStr "advanced");
     ("cellRenderer", CRenderer "TableAdvancedToggleCellRender");
     ("valueGetter",
      CGetter (fun data =>
                 CellParameter (nodeId a) (row_key data) (isTweaks a)));
     ("editable", CBool false);
     ("maxWidth", CNum (if negb (truthy (isTweaks a)) then 80 else 120));
     ("minWidth", CNum (if negb (truthy (isTweaks a)) then 80 else 120));
     ("resizable", CBool false);
     ("cellClass", CStr "no-border cursor-default !py-1")]
    :: colDefs
  else colDefs.

(** One call of the hook during a render; the dependency array is
    [[open]], a boolean, compared by value. *)
Definition useColumnDefs (t : string -> string) (a : Args)
    (cell : option (MemoCell (list ColDef)))
  : list ColDef * option (MemoCell (list ColDef)) :=
  useMemo (fun _ => colDefsFactory t a) [Nat.b2n (open a)] cell.

(** The successive renders of a mounted component; each render has its own
    translation function and arguments. *)
Fixpoint renders (cell : option (MemoCell (list ColDef)))
    (calls : list ((string -> string) * Args)) : list (list ColDef) :=
  match calls with
  | [] => []
  | (t, a) :: calls' =>
      let '(v, cell') := useColumnDefs t a cell in
      v :: renders cell' calls'
  end.

(** The [field] of each column. *)
Fixpoint property (name : string) (c : ColDef) : option ColValue :=
  match c with
  | [] => None
  | (n, v) :: rest => if String.eqb n name then Some v else property name rest
  end.

End ColumnDefs.

(** ** pages/SettingsPage: the entries of the side bar *)

Module Settings.
Import React.

Record NavItem : Type := {
  title : string;
  href : option string;
  icon : Element Empty_set;
}.

(** [array.splice(start, 0, ...items)] *)
Definition splice {A : Type} (start : nat) (items l : list A) : list A :=
  take start l ++ items ++ drop start l.

Section Page.
Variable t : string -> string.
(** The feature flags, and the items [CustomStoreSidebar] returns. *)
Variable ENABLE_PROFILE_ICONS : bool.
Variable ENABLE_DATASTAX_LANGFLOW : bool.
Variable langflowItems : list NavItem.

Definition nav_icon (name : string) : Element Empty_set :=
  Elem "ForwardedIconComponent"
    [("name", AStr name);
     ("className", AStr "w-4 flex-shrink-0 justify-start stroke-[1.5]")]
    [].

Definition general_item : NavItem :=
  {| title := t "settings.general"; href := Some "/settings/general";
     icon := nav_icon "SlidersHorizontal" |}.

(** The four entries pushed in any case. *)
Definition fixed_items : list NavItem :=
  [ {| title := t "settings.mcpServers"; href := Some "/settings/mcp-servers";
       icon := nav_icon "Mcp" |};
    {| title := t "settings.globalVariables";
       href := Some "/settings/global-variables";
       icon := nav_icon "Globe" |};
    {| title := t "settings.shortcuts"; href := Some "/settings/shortcuts";
       icon := nav_icon "Keyboard" |};
    {| title := t "settings.messages"; href := Some "/settings/messages";
       icon := nav_icon "MessagesSquare" |} ].

(** [ENABLE_PROFILE_ICONS || hasStore || !autoLogin] *)
Definition showGeneralSettings (hasStore autoLogin : bool) : bool :=
  ENABLE_PROFILE_ICONS || hasStore || negb autoLogin.

Definition sidebarNavItems (hasStore autoLogin : bool) : list NavItem :=
  let pushed :=
    (if showGeneralSettings hasStore autoLogin then [general_item] else [])
    ++ fixed_items in
  if negb ENABLE_DATASTAX_LANGFLOW then splice 2 langflowItems pushed
  else pushed.

End Page.
End Settings.

(** ** App: the effect that switches the language of i18n *)

Module App.
Import I18nStore LanguageMenu.

(** The body of the effect: [if (lang) { i18n.changeLanguage(lang) }]; the
    result lists the calls of [changeLanguage]. *)
Definition lang_effect (lang : list ascii) : list (list ascii) :=
  match lang with
  | [] => []
  | _ :: _ => [lang]
  end.

(** The effect has the dependency array [[lang]]: after a render it runs
    when [lang] is not what it was at the render before. *)
Definition after_render (previous lang : list ascii) : list (list ascii) :=
  if decide (lang = previous) then [] else lang_effect lang.

(** A session: the page is mounted with the store at [w], then the user
    clicks on items of the language menu, each click followed by a render.
    The result is the store at the end and the calls of [changeLanguage]
    made on the way. *)
Fixpoint after_clicks (w : Storage * I18nType) (items : list Language)
  : (Storage * I18nType) * list (list ascii) :=
  match items with
  | [] => (w, [])
  | item :: items' =>
      let w' := onClick item w in
      let '(w'', calls) := after_clicks w' items' in
      (w'', after_render (lang w.2) (lang w'.2) ++ calls)
  end.

Definition session (w : Storage * I18nType) (items : list Language)
  : (Storage * I18nType) * list (list ascii) :=
  let '(w', calls) := after_clicks w items in
  (w', lang_effect (lang w.2) ++ calls).

(** No two calls in a row are for the same language. *)
Fixpoint no_repeat (calls : list (list ascii)) : Prop :=
  match calls with
  | a :: (b :: _) as rest => a <> b /\ no_repeat rest
  | _ => True
  end.

End App.

(* ===================================================================== *)
(** * Part II: properties                                                 *)
(* ===================================================================== *)

(** ** GenericErrorComponent *)

Section GenericErrorProperties.
Import React GenericError.
Context {F : Type}.
Variable t : string -> string.

Lemma strict_equals_JsString (v : JsValue) (s : string) :
  strict_equals v (JsString s) = true <-> v = JsString s.
Proof.
  destruct v; simpl; split; try discriminate.
  - intros H. apply String.eqb_eq in H. by subst.
  - intros [= ->]. apply String.eqb_refl.
Qed.

(** C3. Whatever the value of [healthCheckTimeout] is, the component renders
    the server-fetch error component exactly when it is the string
    "serverDown", the timeout error component exactly when it is the string
    "timeout", and the empty fragment exactly in all other cases, among them
    [null] and [undefined]. *)
Theorem GenericErrorComponent_cases (p : Props F) :
  (is_fetch_error (GenericErrorComponent t p)
     <-> healthCheckTimeout p = JsString "serverDown")
  /\ (is_timeout_error (GenericErrorComponent t p)
     <-> healthCheckTimeout p = JsString "timeout")
  /\ (GenericErrorComponent t p = Fragment []
     <-> healthCheckTimeout p <> JsString "serverDown"
         /\ healthCheckTimeout p <> JsString "timeout")
  /\ GenericErrorComponent t
       {| healthCheckTimeout := JsNull; fetching := fetching p;
          retry := retry p |} = Fragment []
  /\ GenericErrorComponent t
       {| healthCheckTimeout := JsUndefined; fetching := fetching p;
          retry := retry p |} = Fragment [].
Proof.
  unfold is_fetch_error, is_timeout_error, GenericErrorComponent.
  destruct (strict_equals (healthCheckTimeout p) (JsString "serverDown")) eqn:Hd.
  - apply strict_equals_JsString in Hd. rewrite Hd. simpl.
    repeat split; try done; try discriminate.
    intros [H _]. by destruct H.
  - destruct (strict_equals (healthCheckTimeout p) (JsString "timeout")) eqn:Ht.
    + apply strict_equals_JsString in Ht. rewrite Ht. simpl.
      repeat split; try done; try discriminate.
      intros [_ H]. by destruct H.
    + assert (healthCheckTimeout p <> JsString "serverDown") as Hd'.
      { intros H. apply strict_equals_JsString in H. congruence. }
      assert (healthCheckTimeout p <> JsString "timeout") as Ht'.
      { intros H. apply strict_equals_JsString in H. congruence. }
      simpl. repeat split; try done; try discriminate.
Qed.

End GenericErrorProperties.

(** ** PlaygroundButton *)

Section PlaygroundProperties.
Import React Playground.
Context {F : Type}.
Variable t : string -> string.
Variable ENABLE_PUBLISH : bool.

(** C5. For all props the component renders the playground modal around the
    active button exactly when [hasIO] is true, the disabled button in its
    tooltip exactly when [hasIO] is false, and so exactly one of a modal and
    a tooltip. *)
Theorem PlaygroundButton_hasIO (p : PlaygroundButtonProps F) :
  (is_playground_modal t ENABLE_PUBLISH (PlaygroundButton t ENABLE_PUBLISH p)
     <-> hasIO p = true)
  /\ (is_disabled_with_tooltip t ENABLE_PUBLISH (PlaygroundButton t ENABLE_PUBLISH p)
     <-> hasIO p = false)
  /\ length (by_tag "CustomIOModal" (PlaygroundButton t ENABLE_PUBLISH p))
     + length (by_tag "ShadTooltip" (PlaygroundButton t ENABLE_PUBLISH p))
     = 1.
Proof.
  unfold is_playground_modal, is_disabled_with_tooltip, PlaygroundButton.
  destruct (hasIO p); simpl.
  - split; [|split]; [split; [done|eauto] | split; discriminate | reflexivity].
  - split; [|split]; [split; [intros [a Ha]|]; discriminate
                     | done | reflexivity].
Qed.

End PlaygroundProperties.

(** ** NoInputView *)

Section NoInputProperties.
Import React NoInput.
Context {E : Type}.
Variable t : string -> string.

(** C6. For all props the view holds exactly one button. When [isBuilding]
    is false it is the run button, whose click handler calls [sendMessage]
    with [repeat] set to 1; when [isBuilding] is true it is the stop button,
    whose click handler is [stopBuilding]. *)
Theorem NoInputView_one_control (p : NoInputViewProps E) :
  exists b,
    by_tag "Button" (NoInputView t p) = [b]
    /\ if isBuilding p then
         test_id b = Some (AStr "button-stop")
         /\ on_click b = Some (AFun (stopBuilding p))
       else
         test_id b = Some (AStr "button-send")
         /\ exists h, on_click b = Some (AFun h)
            /\ forall ev, h ev = sendMessage p {| repeat := 1 |}.
Proof.
  unfold NoInputView. destruct (isBuilding p); simpl.
  - eexists. split; [reflexivity|]. by split.
  - eexists. split; [reflexivity|]. split; [done|].
    eexists. split; [reflexivity|]. done.
Qed.

End NoInputProperties.

(** ** The switch-locale mutation *)

Section SwitchLocaleProperties.
Import SwitchLocale.
Context {Data Err : Type}.
Variable getURL : string -> string.

(** C2. For every payload and every behaviour of the server, one call of
    the mutation function sends exactly one request, a PUT of the payload to
    the LOCALE url followed by /switch/, and settles with the body of the
    response as it came; when the request fails the call rejects with that
    failure and nothing was sent a second time. *)
Theorem switchLocale_one_put (srv : Server Data Err)
    (payload : ISwitchLocale) :
  run srv [] (mutationFn getURL payload)
  = ([switch_request getURL payload],
     match srv 0 (switch_request getURL payload) with
     | inl e => inl e
     | inr response => inr (data response)
     end).
Proof.
  unfold mutationFn, switchLocaleFn, switch_request. simpl.
  by destruct (srv 0 _).
Qed.

End SwitchLocaleProperties.

(** ** The publish switch of the deploy dropdown *)

Section DeployProperties.
Import Deploy.
Context {FlowType : Type}.
Variable flow_id : FlowType -> string.
Variable t : string -> string.

Lemma replace_flow_same (updatedFlow flow : FlowType) :
  flow_id flow = flow_id updatedFlow ->
  replace_flow flow_id updatedFlow flow = updatedFlow.
Proof. intros H. unfold replace_flow. by rewrite H, String.eqb_refl. Qed.

Lemma replace_flow_other (updatedFlow flow : FlowType) :
  flow_id flow <> flow_id updatedFlow ->
  replace_flow flow_id updatedFlow flow = flow.
Proof.
  intros H. unfold replace_flow.
  destruct (String.eqb_spec (flow_id flow) (flow_id updatedFlow)); done.
Qed.

(** C10. When the PATCH succeeds and the flows were defined, the flows list
    becomes a list of the same length that holds, position by position, the
    updated flow where the old flow had its id and the old flow itself
    elsewhere, and the current flow becomes the updated flow; when the flows
    were undefined, the flows list and the current flow stay as they were
    and the error alert is set. *)
Theorem onSuccess_frame (fl : list FlowType) (updatedFlow : FlowType)
    (st : Stores FlowType) :
  (exists fl',
      flows (onSuccess flow_id t (Some fl) updatedFlow st) = Some fl'
      /\ length fl' = length fl
      /\ forall i : nat,
           fl' !! i
           = (fun flow => if decide (flow_id flow = flow_id updatedFlow)
                          then updatedFlow else flow) <$> fl !! i)
  /\ currentFlow (onSuccess flow_id t (Some fl) updatedFlow st)
     = Some updatedFlow
  /\ flows (onSuccess flow_id t None updatedFlow st) = flows st
  /\ currentFlow (onSuccess flow_id t None updatedFlow st) = currentFlow st
  /\ errorData (onSuccess flow_id t None updatedFlow st)
     = Some (flows_undefined_alert t).
Proof.
  split; [|by repeat split].
  exists (map (replace_flow flow_id updatedFlow) fl). simpl.
  split; [done|]. split; [apply length_map|].
  intros i. rewrite list_lookup_fmap.
  destruct (fl !! i) as [flow|]; simpl; [|done].
  f_equal. case_decide.
  - by apply replace_flow_same.
  - by apply replace_flow_other.
Qed.

End DeployProperties.

(** ** The user filter of the admin page *)

Section StringMethodProperties.
Import JsStr.

Lemma startsWith_spec (s p : list ascii) :
  startsWith s p = true <-> exists post, s = p ++ post.
Proof.
  revert s. induction p as [|a p IH]; intros s; simpl.
  - split; [eauto|done].
  - destruct s as [|b s].
    + split; [done|]. by intros [post H].
    + destruct (Ascii.eqb_spec a b) as [->|Hne].
      * rewrite IH. split; intros [post H]; exists post; congruence.
      * split; [done|]. intros [post H]. congruence.
Qed.

Lemma includes_spec (s sub : list ascii) :
  includes s sub = true <-> occurs_in sub s.
Proof.
  unfold occurs_in. induction s as [|c s IH]; simpl.
  - rewrite orb_false_r, startsWith_spec. split.
    + intros [post H]. by exists [], post.
    + intros (pre & post & H). destruct pre; [by exists post|done].
  - rewrite orb_true_iff, startsWith_spec, IH. split.
    + intros [[post H] | (pre & post & H)].
      * by exists [], post.
      * exists (c :: pre), post. simpl. by f_equal.
    + intros (pre & post & H). destruct pre as [|c' pre]; simpl in H.
      * left. by exists post.
      * right. exists pre, post. congruence.
Qed.

Lemma includes_empty (s : list ascii) : includes s [] = true.
Proof. apply includes_spec. by exists [], s. Qed.

End StringMethodProperties.

Section AdminProperties.
Import JsStr Admin.
Context {Users : Type}.
Variable username : Users -> list ascii.

Lemma matches_filter_spec (input : list ascii) (user : Users) :
  matches_filter username input user = true
  <-> name_contains username input user.
Proof. apply includes_spec. Qed.

Lemma handleFilterUsers_filter (input : list ascii) (st : PageState Users) :
  filterUserList (handleFilterUsers username input st)
  = List.filter (matches_filter username input) (userList_current st).
Proof.
  unfold handleFilterUsers. case_decide as Hin; simpl; [|done].
  subst input. symmetry. apply forallb_filter_id, forallb_forall.
  intros u _. apply includes_empty.
Qed.

(** C4. A fetch stores the list of users and shows it. From then on,
    whatever the page went through and whatever is typed into the filter:
    with the empty string the page shows the whole stored list; in every
    case it shows the users of the stored list whose lowercased name
    contains the lowercased input, each as often and in the order the list
    has them; the stored list is not changed, so that emptying the filter
    afterwards shows the whole list again. *)
Theorem handleFilterUsers_shows (L : list Users) (input : list ascii)
    (st : PageState Users) :
  (userList_current (onUsersFetched L st) = L
   /\ filterUserList (onUsersFetched L st) = L)
  /\ filterUserList (handleFilterUsers username [] st) = userList_current st
  /\ filterUserList (handleFilterUsers username input st)
     = List.filter (matches_filter username input) (userList_current st)
  /\ (forall u, matches_filter username input u = true
                <-> name_contains username input u)
  /\ (forall u, u ∈ filterUserList (handleFilterUsers username input st)
                <-> u ∈ userList_current st
                    /\ name_contains username input u)
  /\ filterUserList (handleFilterUsers username input st)
       `sublist_of` userList_current st
  /\ inputValue (handleFilterUsers username input st) = input
  /\ userList_current (handleFilterUsers username input st)
     = userList_current st
  /\ filterUserList
       (handleFilterUsers username [] (handleFilterUsers username input st))
     = userList_current st.
Proof.
  assert (forall i s, userList_current (handleFilterUsers username i s)
                      = userList_current s) as Hframe.
  { intros i s. unfold handleFilterUsers. by case_decide. }
  split; [done|]. split; [done|].
  split; [apply handleFilterUsers_filter|].
  split; [intros u; apply matches_filter_spec|].
  split.
  { intros u. rewrite handleFilterUsers_filter, !list_elem_of_In, filter_In.
    by rewrite matches_filter_spec. }
  split.
  { rewrite handleFilterUsers_filter.
    induction (userList_current st) as [|u l IH]; simpl; [constructor|].
    destruct (matches_filter username input u); by constructor. }
  split; [unfold handleFilterUsers; by case_decide|].
  split; [apply Hframe|].
  unfold handleFilterUsers at 1. simpl. apply Hframe.
Qed.

End AdminProperties.

(** ** The sign-up page *)

Section SignUpProperties.
Import JsStr SignUp.

Lemma effect_inputState (st : State) :
  inputState (effect st) = inputState st.
Proof. unfold effect. repeat case_match; done. Qed.

Lemma effect_synced (st : State) : synced (effect st).
Proof.
  unfold synced, incomplete. rewrite effect_inputState. unfold effect.
  destruct (bool_decide_reflect (password (inputState st)
                                 = cnfPassword (inputState st))) as [He|He];
    simpl; [|by intuition].
  destruct (bool_decide_reflect (password (inputState st) = [])) as [Hp|Hp];
    simpl; [by intuition|].
  destruct (bool_decide_reflect (cnfPassword (inputState st) = [])) as [Hc|Hc];
    simpl; [by intuition|].
  destruct (bool_decide_reflect (username (inputState st) = [])) as [Hu|Hu];
    simpl; [by intuition|].
  split; [done|]. intros [H|[H|[H|H]]]; done.
Qed.

Lemma init_synced : synced init.
Proof. apply effect_synced. Qed.

Lemma step_synced (st : State) (ev : Event) :
  synced st -> synced (step st ev).1.
Proof.
  intros Hs. destruct ev as [name value|]; simpl.
  - apply effect_synced.
  - by destruct (isDisabled st).
Qed.

Lemma step_invocations (st : State) (ev : Event) :
  synced st -> Forall complete_and_trimmed (step st ev).2.
Proof.
  intros Hs. destruct ev as [name value|]; simpl; [constructor|].
  destruct (isDisabled st) eqn:Hd; simpl; constructor; [|constructor].
  unfold synced, incomplete in Hs. rewrite Hd in Hs.
  unfold complete_and_trimmed; simpl.
  repeat split.
  - intros H. enough (false = true) by done. apply Hs. tauto.
  - intros H. enough (false = true) by done. apply Hs. tauto.
  - destruct (decide (password (inputState st) = cnfPassword (inputState st)))
      as [|Hne]; [done|].
    enough (false = true) by done. apply Hs. tauto.
Qed.

Lemma run_synced (evs : list Event) (st : State) :
  synced st ->
  synced (run st evs).1 /\ Forall complete_and_trimmed (run st evs).2.
Proof.
  revert st. induction evs as [|ev evs IH]; intros st Hs; simpl.
  - split; [done|constructor].
  - pose proof (step_synced st ev Hs) as H1.
    pose proof (step_invocations st ev Hs) as H2.
    destruct (step st ev) as [st1 out1]. simpl in H1, H2.
    destruct (IH st1 H1) as [H3 H4].
    destruct (run st1 evs) as [st2 out2]. simpl in *.
    split; [done|]. by apply Forall_app.
Qed.

(** C9. Whatever the user types and clicks after the page is mounted: once
    the effect has run, the submit button is disabled exactly when the
    password differs from its confirmation or the password, the confirmation
    or the user name is empty; every invocation of [handleSignup] finds a
    non-empty user name and a non-empty password equal to its confirmation,
    and submits the trimmed user name and the trimmed password. *)
Theorem signup_disabled_iff_incomplete (evs : list Event) :
  (isDisabled (run init evs).1 = true
     <-> password (inputState (run init evs).1)
           <> cnfPassword (inputState (run init evs).1)
         \/ password (inputState (run init evs).1) = []
         \/ cnfPassword (inputState (run init evs).1) = []
         \/ username (inputState (run init evs).1) = [])
  /\ Forall complete_and_trimmed (run init evs).2.
Proof.
  destruct (run_synced evs init init_synced) as [Hsync Hinv].
  split; [exact Hsync | exact Hinv].
Qed.

End SignUpProperties.

(** ** The locale hooks *)

Section LocaleProperties.
Import Hooks Locale.

(** A memo cell with no dependencies never recomputes. *)
Lemma useMemo_no_deps {V : Type} (factory : unit -> V) (c : MemoCell V) :
  memo_deps c = [] -> useMemo factory [] (Some c) = (memo_value c, Some c).
Proof. intros H. unfold useMemo. by rewrite decide_True. Qed.

Lemma renders_no_deps {V : Type} (factory : (string -> string) -> V)
    (c : MemoCell V) (ts : list TFunction) :
  memo_deps c = [] ->
  renders (fun t cell => useMemo (fun _ => factory (t_apply t)) [] cell)
          (Some c) ts
  = map (fun _ => memo_value c) ts.
Proof.
  intros Hc. induction ts as [|t ts IH]; [done|].
  cbn [renders map]. rewrite useMemo_no_deps by done. by rewrite IH.
Qed.

(** Every render of a mounted component gets the object of its first
    render, whatever the translation functions of the later renders are. *)
Lemma mounted_no_deps {V : Type} (factory : (string -> string) -> V)
    (t1 : TFunction) (ts : list TFunction) :
  mounted (fun t cell => useMemo (fun _ => factory (t_apply t)) [] cell)
          (t1 :: ts)
  = factory (t_apply t1) :: map (fun _ => factory (t_apply t1)) ts.
Proof. unfold mounted. cbn [renders useMemo]. by rewrite renders_no_deps. Qed.

Lemma useMessageLocale_frozen (t1 : TFunction) (ts : list TFunction) :
  mounted useMessageLocale (t1 :: ts)
  = messageLocaleFactory (t_apply t1)
    :: map (fun _ => messageLocaleFactory (t_apply t1)) ts.
Proof. apply (mounted_no_deps messageLocaleFactory). Qed.

Lemma useFormLocale_frozen (t1 : TFunction) (ts : list TFunction) :
  mounted useFormLocale (t1 :: ts)
  = formLocaleFactory (t_apply t1)
    :: map (fun _ => formLocaleFactory (t_apply t1)) ts.
Proof. apply (mounted_no_deps formLocaleFactory). Qed.

(** With [t] among the dependencies, as in [useShortcutsLocale], a render
    under a new translation function recomputes. *)
Lemma useMemo_on_t_recomputes {V : Type} (factory : (string -> string) -> V)
    (t1 t2 : TFunction) :
  t_ref t1 <> t_ref t2 ->
  mounted (useMemo_on_t factory) [t1; t2]
  = [factory (t_apply t1); factory (t_apply t2)].
Proof.
  intros Hne. unfold mounted, useMemo_on_t. simpl.
  rewrite decide_False by congruence. done.
Qed.

(** On mount the hooks give the translations under the function in force. *)
Lemma locale_hooks_on_mount (t : TFunction) :
  mounted useMessageLocale [t] = [messageLocaleFactory (t_apply t)]
  /\ mounted useFormLocale [t] = [formLocaleFactory (t_apply t)].
Proof.
  split; [apply (useMessageLocale_frozen t []) | apply (useFormLocale_frozen t [])].
Qed.

(** C1. The hooks at a switch of language. A component mounted under the
    English translation function and rendered again under the Chinese one
    gets, at the second render, the object of the first: the entry
    EMPTY_INPUT_SEND_MESSAGE of [useMessageLocale] and the entry
    DEFAULT_PLACEHOLDER of [useFormLocale] are still the English
    translations, which differ from the Chinese ones. (The entry
    RECEIVING_INPUT_VALUE of [useFormLocale] is the translation of a key
    under forformsm, not under forms.) *)
Theorem locale_hooks_keep_first_language :
  (get "EMPTY_INPUT_SEND_MESSAGE"
     <$> mounted useMessageLocale [t_en; t_zh] !! 1)
  = Some (Some (t_apply t_en "messages.emptyInputSend"))
  /\ t_apply t_en "messages.emptyInputSend"
     <> t_apply t_zh "messages.emptyInputSend"
  /\ (get "DEFAULT_PLACEHOLDER" <$> mounted useFormLocale [t_en; t_zh] !! 1)
     = Some (Some (t_apply t_en "forms.defaultPlaceholder"))
  /\ t_apply t_en "forms.defaultPlaceholder"
     <> t_apply t_zh "forms.defaultPlaceholder"
  /\ (get "RECEIVING_INPUT_VALUE" <$> mounted useFormLocale [t_en] !! 0)
     = Some (Some (t_apply t_en "forformsm.receivingInputValue")).
Proof.
  rewrite useMessageLocale_frozen, useFormLocale_frozen.
  destruct (locale_hooks_on_mount t_en) as [_ ->].
  repeat split; done.
Qed.

End LocaleProperties.

(** ** The language store *)

Section JsonProperties.
Import JsStr I18nStore.

(** Reading back one written character. *)
Lemma parse_quote_char (c : ascii) (tail : list ascii) :
  parse_chars (quote_char c ++ tail)
  = match parse_chars tail with
    | Some (v, rest) => Some (c :: v, rest)
    | None => None
    end.
Proof. destruct c as [[] [] [] [] [] [] [] []]; reflexivity. Qed.

Lemma parse_quoted (s rest : list ascii) :
  parse_chars (flat_map quote_char s ++ dquote :: rest) = Some (s, rest).
Proof.
  induction s as [|c s IH]; [done|].
  simpl flat_map. rewrite <- app_assoc, parse_quote_char. by rewrite IH.
Qed.

(** [JSON.parse(JSON.stringify(s))] is [s], for every string. *)
Lemma JSON_parse_stringify (s : list ascii) :
  JSON_parse (JSON_stringify s) = ParsedString s.
Proof.
  unfold JSON_parse, JSON_stringify.
  change (skip_ws (dquote :: ?x)) with (dquote :: x).
  change (Ascii.eqb dquote dquote) with true. cbv iota.
  by rewrite parse_quoted.
Qed.

Lemma split_first (sep : ascii) (s : list ascii) :
  exists pieces, split sep s = before_first sep s :: pieces.
Proof.
  induction s as [|c s [pieces IH]]; simpl; [by eexists|].
  destruct (Ascii.eqb c sep); [by eexists|].
  rewrite IH. by eexists.
Qed.

(** [before_first] gives the longest prefix free of the separator. *)
Lemma before_first_spec (sep : ascii) (s : list ascii) :
  (sep ∉ before_first sep s)
  /\ (before_first sep s = s
      \/ exists rest, s = before_first sep s ++ sep :: rest).
Proof.
  induction s as [|c s [IH1 IH2]]; simpl.
  - split; [apply not_elem_of_nil | left; done].
  - destruct (Ascii.eqb_spec c sep) as [->|Hne].
    + split; [apply not_elem_of_nil | right; exists s; done].
    + split.
      * rewrite elem_of_cons. intros [H|H]; [congruence|done].
      * destruct IH2 as [->|[rest Hr]]; [by left|].
        right. exists rest. simpl. by rewrite <- Hr.
Qed.

Lemma initial_lang_detected (ls : Storage) (nav : Navigator) :
  getItem "language" ls = None ->
  initial_lang ls nav
  = match language nav with
    | _ :: _ => LangIs (before_first "-" (language nav))
    | [] =>
        match languages nav !! 0 with
        | Some first => LangIs (before_first "-" first)
        | None => ThrowsTypeError
        end
    end.
Proof.
  intros H. unfold initial_lang. rewrite H.
  destruct (language nav) as [|c l] eqn:Hl.
  - destruct (languages nav !! 0) as [b|]; [|done].
    by destruct (split_first "-" b) as [pieces ->].
  - by destruct (split_first "-" (c :: l)) as [pieces ->].
Qed.

(** C8, with the fallback of the initializer spelled out. Round trip of the
    language store: for every language [l], [setLanguage l] writes
    [JSON.stringify l] under the key 'language' and sets [lang] to [l], and
    an initialization that finds this value stored gives [lang = l]. When
    nothing is stored, the initial language is the part before the first
    hyphen of [navigator.language] when that is not empty and of the first
    of [navigator.languages] otherwise (with neither, the initializer
    throws); it need not lie in the type [Language]: a French browser gives
    "fr". *)
Theorem language_store_round_trip (l : list ascii) (ls ls0 : Storage)
    (st : I18nType) (nav : Navigator) :
  getItem "language" ls0 = None ->
  (setLanguage l (ls, st)).1 = <["language" := JSON_stringify l]> ls
  /\ getItem "language" (setLanguage l (ls, st)).1 = Some (JSON_stringify l)
  /\ lang (setLanguage l (ls, st)).2 = l
  /\ initial_lang (setLanguage l (ls, st)).1 nav = LangIs l
  /\ initial_lang ls0 nav
     = match language nav with
       | _ :: _ => LangIs (before_first "-" (language nav))
       | [] =>
           match languages nav !! 0 with
           | Some first => LangIs (before_first "-" first)
           | None => ThrowsTypeError
           end
       end
  /\ (("-"%char ∉ before_first "-" (language nav))
      /\ (before_first "-" (language nav) = language nav
          \/ exists rest,
               language nav
               = before_first "-" (language nav) ++ "-"%char :: rest))
  /\ initial_lang ls0 {| language := js "fr-FR"; languages := [js "fr-FR"] |}
     = LangIs (js "fr")
  /\ is_Language (js "fr") = false.
Proof.
  intros Hnone.
  assert (getItem "language" (setLanguage l (ls, st)).1
          = Some (JSON_stringify l)) as Hget.
  { unfold setLanguage, getItem, setItem. simpl. apply lookup_insert_eq. }
  split; [done|]. split; [done|]. split; [done|].
  split; [unfold initial_lang; by rewrite Hget, JSON_parse_stringify|].
  split; [by apply initial_lang_detected|].
  split; [apply before_first_spec|].
  split; [by rewrite initial_lang_detected|done].
Qed.

(** The round trip at the language 'zh', from an empty storage, in a browser
    whose language is en-US. *)
Lemma language_store_round_trip_witness :
  getItem "language" (∅ : Storage) = None
  /\ getItem "language" (setLanguage (js "zh") (∅, {| lang := js "en" |})).1
     = Some (JSON_stringify (js "zh"))
  /\ lang (setLanguage (js "zh") (∅, {| lang := js "en" |})).2 = js "zh"
  /\ initial_lang (setLanguage (js "zh") (∅, {| lang := js "en" |})).1
       {| language := js "en-US"; languages := [js "en-US"; js "en"] |}
     = LangIs (js "zh")
  /\ initial_lang ∅
       {| language := js "en-US"; languages := [js "en-US"; js "en"] |}
     = LangIs (js "en").
Proof.
  assert (getItem "language" (∅ : Storage) = None) as Hnone by reflexivity.
  split; [exact Hnone|].
  destruct (language_store_round_trip (js "zh") ∅ ∅ {| lang := js "en" |}
              {| language := js "en-US"; languages := [js "en-US"; js "en"] |}
              Hnone)
    as (_ & Hstored & Hlang & Hback & Hdetected & _).
  split; [exact Hstored|]. split; [exact Hlang|]. split; [exact Hback|].
  exact Hdetected.
Defined.

(** C8 does not hold of [navigator.language] alone: when it is empty, with
    nothing stored and the languages list starting with zh-CN, the initial
    language is "zh", not the part of the empty [navigator.language] before
    its first hyphen. *)
Lemma initial_lang_falls_back_to_languages :
  getItem "language" (∅ : Storage) = None
  /\ initial_lang ∅ {| language := []; languages := [js "zh-CN"] |}
     = LangIs (js "zh")
  /\ initial_lang ∅ {| language := []; languages := [js "zh-CN"] |}
     <> lang_of_navigator_language
          {| language := []; languages := [js "zh-CN"] |}.
Proof. split; [reflexivity|]. split; [reflexivity|]. discriminate. Qed.

End JsonProperties.

(** ** The highlighting regular expression *)

Section MatcherProperties.
Import Regex.

Lemma lazy_star_sound (p : ascii -> bool) (s rest : list ascii) :
  In rest (lazy_star p s) ->
  exists w, s = w ++ rest /\ Forall (fun c => p c = true) w.
Proof.
  revert rest. induction s as [|c s IH]; intros rest; simpl.
  - intros [<-|[]]. by exists [].
  - intros [<-|H]; [by exists []|].
    destruct (p c) eqn:Hp; [|done].
    destruct (IH _ H) as (w & -> & Hw).
    exists (c :: w). split; [done|by constructor].
Qed.

Lemma greedy_star_sound (p : ascii -> bool) (s rest : list ascii) :
  In rest (greedy_star p s) ->
  exists w, s = w ++ rest /\ Forall (fun c => p c = true) w.
Proof.
  revert rest. induction s as [|c s IH]; intros rest; simpl.
  - intros [<-|[]]. by exists [].
  - destruct (p c) eqn:Hp.
    + rewrite in_app_iff. intros [H|[<-|[]]]; [|by exists []].
      destruct (IH _ H) as (w & -> & Hw).
      exists (c :: w). split; [done|by constructor].
    + intros [<-|[]]. by exists [].
Qed.

Lemma greedy_plus_sound (p : ascii -> bool) (s rest : list ascii) :
  In rest (greedy_plus p s) ->
  exists w, s = w ++ rest /\ w <> [] /\ Forall (fun c => p c = true) w.
Proof.
  destruct s as [|c s]; simpl; [done|].
  destruct (p c) eqn:Hp; [|done].
  intros H. destruct (greedy_star_sound _ _ _ H) as (w & -> & Hw).
  exists (c :: w). split; [done|]. split; [done|by constructor].
Qed.

Lemma take_matched (w rest : list ascii) :
  take (length (w ++ rest) - length rest) (w ++ rest) = w.
Proof.
  rewrite length_app.
  replace (length w + length rest - length rest) with (length w) by lia.
  by rewrite take_app_length.
Qed.

(** Whatever the matcher returns is a way the expression matches. *)
Lemma matcher_sound (r : regex) (s rest : list ascii) (c0 c1 : Captures) :
  In (rest, c1) (matcher r s c0) ->
  exists w, s = w ++ rest /\ Matches r w c0 c1.
Proof.
  revert s rest c0 c1.
  induction r as [p|r1 IH1 r2 IH2|r1 IH1 r2 IH2|p|p|n r IH];
    intros s rest c0 c1; simpl.
  - destruct s as [|c s]; [done|]. destruct (p c) eqn:Hp; [|done].
    intros [[= <- <-]|[]]. exists [c]. split; [done|by constructor].
  - rewrite in_flat_map. intros ([s1 cm] & H1 & H2). simpl in H2.
    destruct (IH1 _ _ _ _ H1) as (w1 & -> & Hm1).
    destruct (IH2 _ _ _ _ H2) as (w2 & -> & Hm2).
    exists (w1 ++ w2). split; [by rewrite <- app_assoc|].
    by econstructor.
  - rewrite in_app_iff. intros [H|H].
    + destruct (IH1 _ _ _ _ H) as (w & -> & Hm).
      exists w. split; [done|]. by apply M_Alt_l.
    + destruct (IH2 _ _ _ _ H) as (w & -> & Hm).
      exists w. split; [done|]. by apply M_Alt_r.
  - rewrite in_map_iff. intros (s' & [= <- <-] & H).
    destruct (lazy_star_sound _ _ _ H) as (w & -> & Hw).
    exists w. split; [done|]. by constructor.
  - rewrite in_map_iff. intros (s' & [= <- <-] & H).
    destruct (greedy_plus_sound _ _ _ H) as (w & -> & Hne & Hw).
    exists w. split; [done|]. by constructor.
  - rewrite in_map_iff. intros ([s' cm] & [= <- <-] & H).
    destruct (IH _ _ _ _ H) as (w & -> & Hm). simpl.
    exists w. split; [done|]. rewrite take_matched. by constructor.
Qed.

Lemma exec_unfold (r : regex) (i : nat) (s : list ascii) :
  exec r i s
  = match matcher r s ∅ with
    | (rest, caps) :: _ =>
        Some {| index := i; whole := take (length s - length rest) s;
                groups := caps; after := rest |}
    | [] =>
        match s with
        | [] => None
        | _ :: s' => exec r (S i) s'
        end
    end.
Proof. by destruct s. Qed.

(** A match found by [exec] lies in the input, after what was skipped, and
    is a way the expression matches. *)
Lemma exec_sound (r : regex) (i : nat) (s : list ascii) (mt : Match) :
  exec r i s = Some mt ->
  exists skipped,
    s = skipped ++ whole mt ++ after mt
    /\ index mt = i + length skipped
    /\ Matches r (whole mt) ∅ (groups mt).
Proof.
  revert i. induction s as [|c s IH]; intros i; rewrite exec_unfold.
  - destruct (matcher r [] ∅) as [|[rest caps] l] eqn:Hm; [done|].
    destruct (matcher_sound r [] rest ∅ caps) as (w & Hw & HM).
    { rewrite Hm. by left. }
    rewrite Hw, take_matched. intros [= <-]. simpl.
    exists []. split; [done|]. split; [simpl; lia|done].
  - destruct (matcher r (c :: s) ∅) as [|[rest caps] l] eqn:Hm.
    + intros H. destruct (IH _ H) as (skipped & -> & Hi & HM).
      exists (c :: skipped). split; [done|]. split; [simpl; lia|done].
    + destruct (matcher_sound r (c :: s) rest ∅ caps) as (w & Hw & HM).
      { rewrite Hm. by left. }
      rewrite Hw, take_matched. intros [= <-]. simpl.
      exists []. split; [done|]. split; [simpl; lia|done].
Qed.

(** Every match of the enumeration is a match found by [exec] somewhere. *)
Lemma matchAll_fuel_sound (r : regex) (fuel i : nat) (s : list ascii)
    (mt : Match) :
  In mt (matchAll_fuel fuel r i s) -> Matches r (whole mt) ∅ (groups mt).
Proof.
  revert i s. induction fuel as [|fuel IH]; intros i s; simpl; [done|].
  destruct (exec r i s) as [m0|] eqn:He; [|done].
  intros [<-|H].
  - by destruct (exec_sound _ _ _ _ He) as (_ & _ & _ & HM).
  - destruct (whole m0), (after m0); try done; by eapply IH.
Qed.

(** The enumeration does not depend on the fuel, once there is more of it
    than characters: [matchAll] is the complete list of matches. *)
Lemma matchAll_fuel_enough (r : regex) (n m i : nat) (s : list ascii) :
  length s < n -> length s < m ->
  matchAll_fuel n r i s = matchAll_fuel m r i s.
Proof.
  revert m i s. induction n as [|n IH]; intros m i s Hn Hm; [lia|].
  destruct m as [|m]; [lia|]. simpl.
  destruct (exec r i s) as [mt|] eqn:He; [|done].
  destruct (exec_sound _ _ _ _ He) as (skipped & Hs & _ & _).
  apply (f_equal length) in Hs. rewrite !length_app in Hs.
  f_equal. destruct (whole mt) as [|c w], (after mt) as [|d rest];
    simpl in *; try done; apply IH; simpl; lia.
Qed.

End MatcherProperties.

Section RegexHighlightProperties.
Import Regex.

Lemma Matches_lit (c : ascii) (w : list ascii) (c0 c1 : Captures) :
  Matches (lit c) w c0 c1 -> w = [c] /\ c1 = c0.
Proof.
  unfold lit. inversion 1 as [p x caps Hp| | | | | |]; subst.
  apply Ascii.eqb_eq in Hp. by subst.
Qed.

Lemma Matches_fence (w : list ascii) (c0 c1 : Captures) :
  Matches fence w c0 c1 -> w = js "```" /\ c1 = c0.
Proof.
  unfold fence. inversion 1 as [|r1 r2 w1 w23 ca cb cc H1 H23| | | | |]; subst.
  inversion H23 as [|r2' r3 w2 w3 ca' cb' cc' H2 H3| | | | |]; subst.
  apply Matches_lit in H1 as [-> ->]. apply Matches_lit in H2 as [-> ->].
  apply Matches_lit in H3 as [-> ->]. done.
Qed.

Lemma Matches_GreedyPlus (p : ascii -> bool) (w : list ascii)
    (c0 c1 : Captures) :
  Matches (GreedyPlus p) w c0 c1 ->
  w <> [] /\ Forall (fun c => p c = true) w /\ c1 = c0.
Proof. by inversion 1; subst. Qed.

Lemma Matches_Group (n : nat) (r : regex) (w : list ascii)
    (c0 c1 : Captures) :
  Matches (Group n r) w c0 c1 ->
  exists cm, Matches r w c0 cm /\ c1 = <[n := w]> cm.
Proof. inversion 1; subst. eauto. Qed.

Lemma not_brace_spec (c : ascii) :
  not_brace c = true <-> c <> lbrace /\ c <> rbrace.
Proof.
  unfold not_brace. rewrite negb_true_iff, orb_false_iff.
  by rewrite !Ascii.eqb_neq.
Qed.

(** The first alternative: a fenced block, captured whole as group 1. *)
Lemma Matches_fenced (w : list ascii) (caps : Captures) :
  Matches (Group 1 (Seq fence (Seq (LazyStar any_char) fence))) w ∅ caps ->
  is_fenced_block w /\ caps = {[ 1 := w ]}.
Proof.
  intros H. apply Matches_Group in H as (cm & H & ->).
  inversion H as [|r1 r2 w1 w23 ca cb cc H1 H23| | | | |]; subst.
  inversion H23 as [|r2' r3 w2 w3 ca' cb' cc' H2 H3| | | | |]; subst.
  apply Matches_fence in H1 as [-> ->]. apply Matches_fence in H3 as [-> ->].
  inversion H2; subst. split; [by exists w2|done].
Qed.

(** The second alternative: braces, name, braces, captured as groups 2, 3
    and 4. *)
Lemma Matches_variable (w : list ascii) (caps : Captures) :
  Matches (Seq (Group 2 (GreedyPlus (Ascii.eqb lbrace)))
             (Seq (Group 3 (GreedyPlus not_brace))
                  (Group 4 (GreedyPlus (Ascii.eqb rbrace))))) w ∅ caps ->
  exists opening name closing,
    is_braced_variable w opening name closing
    /\ caps = <[4 := closing]> (<[3 := name]> (<[2 := opening]> ∅)).
Proof.
  inversion 1 as [|r1 r2 o w23 ca cb cc H1 H23| | | | |]; subst.
  inversion H23 as [|r2' r3 n c ca' cb' cc' H2 H3| | | | |]; subst.
  apply Matches_Group in H1 as (c1 & H1 & ->).
  apply Matches_GreedyPlus in H1 as (Ho & Hfo & ->).
  apply Matches_Group in H2 as (c2 & H2 & ->).
  apply Matches_GreedyPlus in H2 as (Hn & Hfn & ->).
  apply Matches_Group in H3 as (c3 & H3 & ->).
  apply Matches_GreedyPlus in H3 as (Hc & Hfc & ->).
  exists o, n, c. split; [|done].
  repeat split; try done.
  - eapply Forall_impl; [exact Hfo|]. intros x Hx.
    symmetry. by apply Ascii.eqb_eq.
  - eapply Forall_impl; [exact Hfn|]. intros x Hx. by apply not_brace_spec.
  - eapply Forall_impl; [exact Hfc|]. intros x Hx.
    symmetry. by apply Ascii.eqb_eq.
Qed.

(** A greedy quantifier first takes the whole run. *)
Lemma greedy_star_first (p : ascii -> bool) (w rest : list ascii) :
  Forall (fun c => p c = true) w -> stops p rest ->
  exists l, greedy_star p (w ++ rest) = rest :: l.
Proof.
  intros Hw Hr. induction Hw as [|c w Hc Hw [l IH]]; simpl.
  - destruct rest as [|c r]; simpl in *; [by eexists|].
    rewrite Hr. by eexists.
  - rewrite Hc, IH. by eexists.
Qed.

Lemma greedy_plus_first (p : ascii -> bool) (w rest : list ascii) :
  w <> [] -> Forall (fun c => p c = true) w -> stops p rest ->
  exists l, greedy_plus p (w ++ rest) = rest :: l.
Proof.
  intros Hne Hw Hr. destruct w as [|c w]; [done|].
  apply Forall_cons in Hw as [Hc Hw]. simpl. rewrite Hc.
  by apply greedy_star_first.
Qed.

Lemma matcher_group_plus_first (n : nat) (p : ascii -> bool)
    (w rest : list ascii) (caps : Captures) :
  w <> [] -> Forall (fun c => p c = true) w -> stops p rest ->
  exists l,
    matcher (Group n (GreedyPlus p)) (w ++ rest) caps
    = (rest, <[n := w]> caps) :: l.
Proof.
  intros Hne Hw Hr.
  destruct (greedy_plus_first p w rest Hne Hw Hr) as [l Hl].
  simpl. rewrite Hl. simpl. rewrite take_matched. by eexists.
Qed.

Lemma matcher_seq_first (r1 r2 : regex) (s s1 s2 : list ascii)
    (c0 c1 c2 : Captures) (l1 l2 : list (list ascii * Captures)) :
  matcher r1 s c0 = (s1, c1) :: l1 ->
  matcher r2 s1 c1 = (s2, c2) :: l2 ->
  exists l, matcher (Seq r1 r2) s c0 = (s2, c2) :: l.
Proof. intros H1 H2. simpl. rewrite H1. simpl. rewrite H2. by eexists. Qed.

(** On a variable in braces, followed by anything but a closing brace, the
    expression first matches the variable, with its three parts captured. *)
Lemma matcher_variable_first (opening name closing rest : list ascii) :
  is_braced_variable (opening ++ name ++ closing) opening name closing ->
  stops (Ascii.eqb rbrace) rest ->
  exists l,
    matcher regexHighlight (opening ++ name ++ closing ++ rest) ∅
    = (rest, <[4 := closing]> (<[3 := name]> (<[2 := opening]> ∅))) :: l.
Proof.
  intros (_ & Ho & Hfo & Hn & Hfn & Hc & Hfc) Hrest.
  assert (stops (Ascii.eqb lbrace) (name ++ closing ++ rest)) as Hs1.
  { destruct name as [|x name]; [done|].
    change (Ascii.eqb lbrace x = false).
    apply Forall_cons in Hfn as [[Hx _] _]. by apply Ascii.eqb_neq. }
  assert (stops not_brace (closing ++ rest)) as Hs2.
  { destruct closing as [|x closing]; [done|].
    change (not_brace x = false).
    apply Forall_cons in Hfc as [-> _]. reflexivity. }
  destruct (matcher_group_plus_first 2 (Ascii.eqb lbrace) opening
              (name ++ closing ++ rest) ∅) as [l2 H2]; [done| |done|].
  { eapply Forall_impl; [exact Hfo|]. intros x ->. apply Ascii.eqb_refl. }
  destruct (matcher_group_plus_first 3 not_brace name (closing ++ rest)
              (<[2 := opening]> ∅)) as [l3 H3]; [done| |done|].
  { eapply Forall_impl; [exact Hfn|]. intros x Hx. by apply not_brace_spec. }
  destruct (matcher_group_plus_first 4 (Ascii.eqb rbrace) closing rest
              (<[3 := name]> (<[2 := opening]> ∅))) as [l4 H4]; [done| |done|].
  { eapply Forall_impl; [exact Hfc|]. intros x ->. apply Ascii.eqb_refl. }
  destruct (matcher_seq_first _ _ _ _ _ _ _ _ _ _ H3 H4) as [l34 H34].
  destruct (matcher_seq_first _ _ _ _ _ _ _ _ _ _ H2 H34) as [l234 H234].
  exists l234. unfold regexHighlight.
  change (matcher (Alt ?a ?b) ?s ?c) with (matcher a s c ++ matcher b s c).
  rewrite H234.
  destruct opening as [|x opening]; [done|].
  apply Forall_cons in Hfo as [-> _]. reflexivity.
Qed.

(** A variable in braces alone is matched once, whole. *)
Lemma matchAll_variable (opening name closing : list ascii) :
  is_braced_variable (opening ++ name ++ closing) opening name closing ->
  matchAll regexHighlight (opening ++ name ++ closing)
  = [ {| index := 0; whole := opening ++ name ++ closing;
         groups := <[4 := closing]> (<[3 := name]> (<[2 := opening]> ∅));
         after := [] |} ].
Proof.
  intros Hv.
  destruct (matcher_variable_first opening name closing [] Hv I) as [l Hl].
  rewrite app_nil_r in Hl.
  unfold matchAll. cbn [matchAll_fuel]. rewrite exec_unfold, Hl.
  cbn [whole after index]. simpl length at 2. rewrite Nat.sub_0_r, firstn_all.
  destruct Hv as (_ & Ho & _).
  destruct (opening ++ name ++ closing) as [|x s'] eqn:Hs.
  { by destruct opening. }
  reflexivity.
Qed.

Lemma regexHighlight_shape (mt : Match) :
  Matches regexHighlight (whole mt) ∅ (groups mt) -> fenced_or_variable mt.
Proof.
  unfold regexHighlight, fenced_or_variable, p1, p2, p3, p4.
  inversion 1 as [| |r1 r2 w ca cb H1|r1 r2 w ca cb H2| | |]; subst.
  - left. apply Matches_fenced in H1 as [Hf ->].
    by rewrite lookup_singleton_eq, !lookup_singleton_ne.
  - right. apply Matches_variable in H2 as (o & n & c & Hv & ->).
    split; [done|]. exists o, n, c. done.
Qed.

(** C7. For every input, each match of [regexHighlight] is either a fenced
    code block, which begins and ends with three backticks and is captured
    as [p1] (the other groups undefined), or a run of one or more opening
    braces, one or more characters that are not braces, and a run of one or
    more closing braces, captured as [p2], [p3] and [p4] ([p1] undefined).
    In particular an input that is a variable in braces, such as {variable}
    and {{variable}}, is matched once and whole, with the name without its
    braces as [p3]. *)
Theorem regexHighlight_matches (s : list ascii) :
  Forall fenced_or_variable (matchAll regexHighlight s)
  /\ (forall opening name closing,
        is_braced_variable s opening name closing ->
        map (fun mt => (whole mt, p1 mt, p2 mt, p3 mt, p4 mt))
            (matchAll regexHighlight s)
        = [(s, None, Some opening, Some name, Some closing)])
  /\ map (fun mt => (whole mt, p1 mt, p2 mt, p3 mt, p4 mt))
         (matchAll regexHighlight (js "{variable}"))
     = [(js "{variable}", None, Some (js "{"), Some (js "variable"),
         Some (js "}"))]
  /\ map (fun mt => (whole mt, p1 mt, p2 mt, p3 mt, p4 mt))
         (matchAll regexHighlight (js "{{variable}}"))
     = [(js "{{variable}}", None, Some (js "{{"), Some (js "variable"),
         Some (js "}}"))].
Proof.
  split; [|split; [|split; vm_compute; reflexivity]].
  - apply Forall_forall. intros mt Hin. apply regexHighlight_shape.
    apply list_elem_of_In in Hin. unfold matchAll in Hin.
    by eapply matchAll_fuel_sound.
  - intros opening name closing Hv.
    pose proof Hv as (-> & _). rewrite (matchAll_variable _ _ _ Hv).
    unfold p1, p2, p3, p4. cbn [map whole groups].
    repeat f_equal.
Qed.

(** The theorem at the input {{variable}}. *)
Lemma regexHighlight_matches_witness :
  is_braced_variable (js "{{variable}}") (js "{{") (js "variable") (js "}}")
  /\ map (fun mt => (whole mt, p1 mt, p2 mt, p3 mt, p4 mt))
         (matchAll regexHighlight (js "{{variable}}"))
     = [(js "{{variable}}", None, Some (js "{{"), Some (js "variable"),
         Some (js "}}"))].
Proof.
  assert (is_braced_variable (js "{{variable}}") (js "{{") (js "variable")
            (js "}}")) as Hv.
  { unfold is_braced_variable.
    repeat split; try done; repeat constructor; done. }
  split; [exact Hv|].
  exact (proj1 (proj2 (regexHighlight_matches (js "{{variable}}")))
           _ _ _ Hv).
Defined.

End RegexHighlightProperties.

(** ** More on the highlighting regular expression *)

Section MatchOrderProperties.
Import Regex MatchOrder.

Lemma ordered_from_le (i j : nat) (l : list Match) :
  i <= j -> ordered_from j l -> ordered_from i l.
Proof. destruct l as [|mt l]; simpl; [done|]. intros Hij [H1 H2]. split; [lia|done]. Qed.

Lemma located_intro (pre w post : list ascii) (mt : Match) :
  whole mt = w -> index mt = length pre -> located (pre ++ w ++ post) mt.
Proof.
  intros Hw Hi. unfold located. rewrite Hw, Hi.
  rewrite drop_app_length. by rewrite take_app_length.
Qed.

(** The matches of any expression, enumerated from position [i] of an input
    whose first [i] characters are [pre]. *)
Lemma matchAll_fuel_ordered (r : regex) (fuel : nat) (pre s : list ascii) :
  Forall (located (pre ++ s)) (matchAll_fuel fuel r (length pre) s)
  /\ ordered_from (length pre) (matchAll_fuel fuel r (length pre) s).
Proof.
  revert pre s. induction fuel as [|fuel IH]; intros pre s; simpl; [done|].
  destruct (exec r (length pre) s) as [mt|] eqn:He; [|done].
  destruct (exec_sound _ _ _ _ He) as (skipped & Hs & Hi & _).
  assert (located (pre ++ s) mt) as Hloc.
  { rewrite Hs, app_assoc. apply located_intro; [done|].
    rewrite length_app. lia. }
  assert (index mt + length (whole mt)
          = length (pre ++ skipped ++ whole mt)) as Hend.
  { rewrite !length_app. lia. }
  assert (pre ++ s = (pre ++ skipped ++ whole mt) ++ after mt) as Hsplit.
  { rewrite Hs. by rewrite <- !app_assoc. }
  destruct (whole mt) as [|c w] eqn:Hw, (after mt) as [|d rest] eqn:Ha.
  - split; [by constructor|]. simpl. rewrite ?Hw. split; [lia|done].
  - assert (S (index mt) = length ((pre ++ skipped) ++ [d])) as Hnext.
    { rewrite !length_app. simpl. lia. }
    destruct (IH ((pre ++ skipped) ++ [d]) rest) as [IH1 IH2].
    rewrite <- Hnext in IH1, IH2.
    replace (((pre ++ skipped) ++ [d]) ++ rest) with (pre ++ s) in IH1.
    2:{ rewrite Hs. simpl. by rewrite <- !app_assoc. }
    split; [by constructor|]. simpl. rewrite ?Hw. split; [lia|].
    eapply ordered_from_le; [|exact IH2]. simpl. lia.
  - destruct (IH (pre ++ skipped ++ c :: w) []) as [IH1 IH2].
    rewrite <- Hend, <- Hsplit in IH1. rewrite <- Hend in IH2.
    split; [by constructor|]. simpl. rewrite ?Hw. split; [lia|done].
  - destruct (IH (pre ++ skipped ++ c :: w) (d :: rest)) as [IH1 IH2].
    rewrite <- Hend, <- Hsplit in IH1. rewrite <- Hend in IH2.
    split; [by constructor|]. simpl. rewrite ?Hw. split; [lia|done].
Qed.

Lemma fenced_or_variable_length (mt : Match) :
  fenced_or_variable mt -> 3 <= length (whole mt).
Proof.
  intros [(_ & [body ->] & _) | (_ & o & n & c & _ & _ & _ & Hv)].
  - rewrite !length_app. simpl. lia.
  - destruct Hv as (-> & Ho & _ & Hn & _ & Hc & _).
    rewrite !length_app.
    destruct o, n, c; simpl; try done; lia.
Qed.

(** X1. The matches of [regexHighlight] in any input are pieces of the
    input: each is the text found at its index, has three characters at
    least, and begins at or after the end of the match before it, so no two
    matches overlap. *)
Theorem regexHighlight_matches_disjoint (s : list ascii) :
  Forall (fun mt => located s mt /\ 3 <= length (whole mt))
         (matchAll regexHighlight s)
  /\ ordered_from 0 (matchAll regexHighlight s).
Proof.
  destruct (matchAll_fuel_ordered regexHighlight (S (length s)) [] s)
    as [Hloc Hord].
  split; [|exact Hord].
  apply Forall_forall. intros mt Hin. split.
  - by apply (proj1 (Forall_forall _ _) Hloc).
  - apply fenced_or_variable_length, regexHighlight_shape.
    apply list_elem_of_In in Hin. unfold matchAll in Hin.
    by eapply matchAll_fuel_sound.
Qed.

End MatchOrderProperties.

Section FencedBlockProperties.
Import Regex.

Lemma matcher_fence_open (rest : list ascii) (caps : Captures) :
  matcher fence (js "```" ++ rest) caps = [(rest, caps)].
Proof. reflexivity. Qed.

Lemma matcher_fence_fails (c : ascii) (rest : list ascii) (caps : Captures) :
  c <> backtick -> matcher fence (c :: rest) caps = [].
Proof.
  intros Hc. unfold fence, lit. cbn [matcher].
  apply Ascii.eqb_neq in Hc. rewrite Ascii.eqb_sym in Hc. by rewrite Hc.
Qed.

Lemma matcher_fence_nil (caps : Captures) : matcher fence [] caps = [].
Proof. reflexivity. Qed.

(** After the opening fence, a body without backticks is passed over
    character by character until the closing fence is found. *)
Lemma matcher_body_fence (body : list ascii) (caps : Captures) :
  backtick ∉ body ->
  exists l,
    matcher (Seq (LazyStar any_char) fence) (body ++ js "```") caps
    = ([], caps) :: l.
Proof.
  intros Hb. induction body as [|c body IH].
  - by eexists.
  - apply not_elem_of_cons in Hb as [Hc Hb].
    destruct (IH Hb) as [l Hl]. exists l.
    cbn [matcher] in *. rewrite <- app_comm_cons.
    cbn [lazy_star any_char map flat_map fst snd].
    rewrite matcher_fence_fails by done. exact Hl.
Qed.

Lemma matcher_fenced_block (body : list ascii) :
  backtick ∉ body ->
  exists l,
    matcher regexHighlight (js "```" ++ body ++ js "```") ∅
    = ([], {[ 1 := js "```" ++ body ++ js "```" ]}) :: l.
Proof.
  intros Hb. destruct (matcher_body_fence body ∅ Hb) as [l Hl].
  unfold regexHighlight.
  change (matcher (Alt ?a ?b) ?s ?c) with (matcher a s c ++ matcher b s c).
  change (matcher (Group 1 ?r) ?s ?c)
    with (map (fun x => (x.1, <[1 := take (length s - length x.1) s]> x.2))
              (matcher r s c)).
  change (matcher (Seq fence ?r) ?s ?c)
    with (flat_map (fun x => matcher r x.1 x.2) (matcher fence s c)).
  rewrite matcher_fence_open. cbn [flat_map fst snd].
  rewrite Hl, app_nil_r. cbn [map fst snd app].
  rewrite Nat.sub_0_r, firstn_all. by eexists.
Qed.

Lemma exec_nil_regexHighlight (i : nat) : exec regexHighlight i [] = None.
Proof. reflexivity. Qed.

(** X2. A fenced code block whose body holds no backtick is one match, from
    the opening to the closing fence, captured as [p1] with the other groups
    undefined: whatever braces the body holds are not matched as
    variables. *)
Theorem regexHighlight_fenced_block_whole (body : list ascii) :
  backtick ∉ body ->
  map (fun mt => (index mt, whole mt, p1 mt, p2 mt, p3 mt, p4 mt))
      (matchAll regexHighlight (js "```" ++ body ++ js "```"))
  = [(0, js "```" ++ body ++ js "```",
      Some (js "```" ++ body ++ js "```"), None, None, None)].
Proof.
  intros Hb. destruct (matcher_fenced_block body Hb) as [l Hl].
  unfold matchAll. cbn [matchAll_fuel]. rewrite exec_unfold, Hl.
  cbn [whole after index groups]. change (length (@nil ascii)) with 0.
  rewrite Nat.sub_0_r, firstn_all.
  assert (forall n i, matchAll_fuel n regexHighlight i [] = []) as Hnil.
  { intros [|n] i; reflexivity. }
  rewrite Hnil. clear Hl.
  unfold p1, p2, p3, p4.
  destruct (js "```" ++ body ++ js "```"); cbn [map index whole groups];
    by rewrite lookup_singleton_eq, !lookup_singleton_ne.
Qed.

(** The theorem on a block of code that writes a variable in braces. *)
Lemma regexHighlight_fenced_block_whole_witness :
  (backtick ∉ js "print({x})")
  /\ map (fun mt => (index mt, whole mt, p1 mt, p2 mt, p3 mt, p4 mt))
         (matchAll regexHighlight (js "```" ++ js "print({x})" ++ js "```"))
     = [(0, js "```" ++ js "print({x})" ++ js "```",
         Some (js "```" ++ js "print({x})" ++ js "```"), None, None, None)].
Proof.
  assert (backtick ∉ js "print({x})") as Hb.
  { intros H. apply list_elem_of_In in H. simpl in H.
    repeat (destruct H as [H|H]; [discriminate|]). done. }
  split; [exact Hb|].
  exact (regexHighlight_fenced_block_whole (js "print({x})") Hb).
Defined.

Lemma matcher_regexHighlight_fails (c : ascii) (rest : list ascii) :
  c <> lbrace -> c <> backtick ->
  matcher regexHighlight (c :: rest) ∅ = [].
Proof.
  intros Hl Hb. unfold regexHighlight.
  change (matcher (Alt ?a ?b) ?s ?c) with (matcher a s c ++ matcher b s c).
  change (matcher (Group 1 (Seq fence ?r)) ?s ?c)
    with (map (fun x => (x.1, <[1 := take (length s - length x.1) s]> x.2))
              (flat_map (fun x => matcher r x.1 x.2) (matcher fence s c))).
  rewrite matcher_fence_fails by done. cbn [flat_map map app].
  cbn [matcher greedy_plus].
  apply Ascii.eqb_neq in Hl. rewrite Ascii.eqb_sym in Hl. by rewrite Hl.
Qed.

Lemma exec_regexHighlight_none (i : nat) (s : list ascii) :
  lbrace ∉ s -> backtick ∉ s -> exec regexHighlight i s = None.
Proof.
  revert i. induction s as [|c s IH]; intros i Hl Hb; [done|].
  apply not_elem_of_cons in Hl as [Hl1 Hl2].
  apply not_elem_of_cons in Hb as [Hb1 Hb2].
  rewrite exec_unfold, matcher_regexHighlight_fails by done.
  by apply IH.
Qed.

(** X3. A text with no opening brace and no backtick has no match: nothing
    of it is highlighted. *)
Theorem regexHighlight_plain_text (s : list ascii) :
  lbrace ∉ s -> backtick ∉ s -> matchAll regexHighlight s = [].
Proof.
  intros Hl Hb. unfold matchAll. cbn [matchAll_fuel].
  by rewrite exec_regexHighlight_none.
Qed.

(** The theorem on a sentence with closing braces only. *)
Lemma regexHighlight_plain_text_witness :
  (lbrace ∉ js "no variable here }}")
  /\ (backtick ∉ js "no variable here }}")
  /\ matchAll regexHighlight (js "no variable here }}") = [].
Proof.
  assert (forall c, c ∈ js "no variable here }}" -> c <> lbrace /\ c <> backtick)
    as Hall.
  { intros c H. apply list_elem_of_In in H. simpl in H.
    repeat (destruct H as [<-|H]; [split; discriminate|]). done. }
  assert (lbrace ∉ js "no variable here }}") as Hl.
  { intros H. by destruct (Hall _ H). }
  assert (backtick ∉ js "no variable here }}") as Hb.
  { intros H. by destruct (Hall _ H). }
  split; [exact Hl|]. split; [exact Hb|].
  exact (regexHighlight_plain_text _ Hl Hb).
Defined.

End FencedBlockProperties.

(** ** More on the language store *)

Section LanguageStoreProperties.
Import JsStr I18nStore.

(** X4. [setLanguage] writes the key 'language' and no other key of the
    local storage; a second call overwrites the first altogether, and the
    store initialized afterwards has the language set last. *)
Theorem setLanguage_last_wins (l1 l2 : list ascii) (w : Storage * I18nType)
    (nav : Navigator) (key : string) :
  getItem key (setLanguage l1 w).1
  = (if decide (key = "language") then Some (JSON_stringify l1)
     else getItem key w.1)
  /\ setLanguage l2 (setLanguage l1 w) = setLanguage l2 w
  /\ initial_lang (setLanguage l2 (setLanguage l1 w)).1 nav = LangIs l2.
Proof.
  split; [|split].
  - unfold setLanguage, getItem, setItem. cbn [fst].
    case_decide as Hk.
    + subst key. apply lookup_insert_eq.
    + by apply lookup_insert_ne.
  - unfold setLanguage, setItem. cbn [fst]. f_equal. apply insert_insert_eq.
  - unfold initial_lang, setLanguage, getItem, setItem. cbn [fst].
    by rewrite lookup_insert_eq, JSON_parse_stringify.
Qed.


(** X6. With nothing stored, the language the store starts with holds no
    hyphen: of a tag such as zh-Hans-CN only the part before the first
    hyphen is kept. *)
Theorem initial_lang_no_hyphen (ls : Storage) (nav : Navigator)
    (d : list ascii) :
  getItem "language" ls = None ->
  initial_lang ls nav = LangIs d ->
  "-"%char ∉ d.
Proof.
  intros Hget. rewrite (initial_lang_detected ls nav Hget).
  destruct (language nav) as [|c l] eqn:Hl.
  - destruct (languages nav !! 0) as [first|]; [|done].
    intros [= <-]. exact (proj1 (before_first_spec "-" first)).
  - intros [= <-]. exact (proj1 (before_first_spec "-" (c :: l))).
Qed.

(** The theorem in a browser set to Chinese as written in mainland China. *)
Lemma initial_lang_no_hyphen_witness :
  getItem "language" (∅ : Storage) = None
  /\ initial_lang ∅
       {| language := js "zh-Hans-CN"; languages := [js "zh-Hans-CN"] |}
     = LangIs (js "zh")
  /\ ("-"%char ∉ js "zh").
Proof.
  assert (getItem "language" (∅ : Storage) = None) as Hget by reflexivity.
  assert (initial_lang ∅
            {| language := js "zh-Hans-CN"; languages := [js "zh-Hans-CN"] |}
          = LangIs (js "zh")) as Hinit by reflexivity.
  split; [exact Hget|]. split; [exact Hinit|].
  exact (initial_lang_no_hyphen ∅ _ _ Hget Hinit).
Defined.

End LanguageStoreProperties.

(** ** The language menu *)

Section LanguageMenuProperties.
Import JsStr I18nStore LanguageMenu.







End LanguageMenuProperties.

(** ** More on the sign-up page *)

Section SignUpEdgeProperties.
Import JsStr SignUp.

Lemma trimStart_white (s : list ascii) :
  Forall (fun c => is_white_space c = true) s -> trimStart s = [].
Proof. induction 1 as [|c s Hc Hs IH]; simpl; [done|]. by rewrite Hc. Qed.

Lemma trim_white (s : list ascii) :
  Forall (fun c => is_white_space c = true) s -> trim s = [].
Proof. intros H. unfold trim, trimEnd. by rewrite (trimStart_white s H). Qed.

Lemma effect_enabled (st : State) :
  password (inputState st) = cnfPassword (inputState st) ->
  password (inputState st) <> [] ->
  username (inputState st) <> [] ->
  isDisabled (effect st) = false.
Proof.
  intros He Hp Hu. pose proof (effect_synced st) as Hs.
  unfold synced, incomplete in Hs. rewrite effect_inputState in Hs.
  destruct (isDisabled (effect st)); [|done].
  destruct Hs as [Hs _]. destruct (Hs eq_refl) as [H|[H|[H|H]]]; congruence.
Qed.

Lemma run_cons (st : State) (ev : Event) (evs : list Event) :
  run st (ev :: evs)
  = ((run (step st ev).1 evs).1, (step st ev).2 ++ (run (step st ev).1 evs).2).
Proof.
  cbn [run]. destruct (step st ev) as [st1 out1]. cbn [fst snd].
  by destruct (run st1 evs) as [st2 out2].
Qed.

Lemma step_Change (st : State) (name : FieldName) (value : list ascii) :
  inputState (step st (Change name value)).1
  = handleInput name value (inputState st)
  /\ (step st (Change name value)).2 = [].
Proof. simpl. by rewrite effect_inputState. Qed.

(** After the three fields are typed in, the button is enabled. *)
Lemma typed_in_enabled (st : State) (u p : list ascii) :
  u <> [] -> p <> [] ->
  inputState
    (step (step (step st (Change f_username u)).1 (Change f_password p)).1
          (Change f_cnfPassword p)).1
  = {| password := p; cnfPassword := p; username := u |}
  /\ isDisabled
       (step (step (step st (Change f_username u)).1 (Change f_password p)).1
             (Change f_cnfPassword p)).1
     = false.
Proof.
  intros Hu Hp.
  set (s1 := (step st (Change f_username u)).1).
  set (s2 := (step s1 (Change f_password p)).1).
  destruct (step_Change st f_username u) as [H1 _]. fold s1 in H1.
  destruct (step_Change s1 f_password p) as [H2 _]. fold s2 in H2.
  destruct (step_Change s2 f_cnfPassword p) as [H3 _].
  assert (handleInput f_cnfPassword p (inputState s2)
          = {| password := p; cnfPassword := p; username := u |}) as Hi.
  { rewrite H2, H1. reflexivity. }
  split; [by rewrite H3|].
  cbn [step fst]. apply effect_enabled; cbn [inputState]; by rewrite Hi.
Qed.

(** X8. A user name made of white space alone passes the check of the
    sign-up page. Whatever the page held before, once such a name, a
    non-empty password and the same confirmation are typed in, a click on
    the submit button makes one request, whose user name is the empty
    string and whose password is the trimmed password. *)
Theorem signup_blank_username (st : State) (u p : list ascii) :
  u <> [] -> Forall (fun c => is_white_space c = true) u -> p <> [] ->
  (run st [Change f_username u; Change f_password p;
           Change f_cnfPassword p; ClickSubmit]).2
  = [ {| inv_state := {| password := p; cnfPassword := p; username := u |};
         inv_request := {| new_username := []; new_password := trim p |} |} ].
Proof.
  intros Hu Hws Hp. rewrite !run_cons. cbn [run snd fst].
  destruct (typed_in_enabled st u p Hu Hp) as [Hi Hd].
  remember (step (step (step st (Change f_username u)).1
                      (Change f_password p)).1 (Change f_cnfPassword p)).1
    as s3 eqn:Hs3.
  cbn [step snd app]. rewrite Hd, Hi. cbn [snd app].
  unfold handleSignup. cbn [username password].
  by rewrite (trim_white u Hws).
Qed.

(** The theorem for a user name of three spaces. *)
Lemma signup_blank_username_witness :
  js "   " <> []
  /\ Forall (fun c => is_white_space c = true) (js "   ")
  /\ js "secret" <> []
  /\ (run init [Change f_username (js "   "); Change f_password (js "secret");
                Change f_cnfPassword (js "secret"); ClickSubmit]).2
     = [ {| inv_state := {| password := js "secret";
                            cnfPassword := js "secret";
                            username := js "   " |};
            inv_request := {| new_username := [];
                              new_password := trim (js "secret") |} |} ].
Proof.
  assert (js "   " <> []) as Hu by discriminate.
  assert (Forall (fun c => is_white_space c = true) (js "   ")) as Hws.
  { repeat constructor. }
  assert (js "secret" <> []) as Hp by discriminate.
  split; [exact Hu|]. split; [exact Hws|]. split; [exact Hp|].
  exact (signup_blank_username init _ _ Hu Hws Hp).
Defined.

End SignUpEdgeProperties.

(** ** More on the user filter *)

Section AdminFilterProperties.
Import JsStr Admin.
Context {Users : Type}.
Variable username : Users -> list ascii.




End AdminFilterProperties.

(** ** Pagination and user actions of the admin page *)

Section AdminActionsProperties.
Import AdminActions.
Context {EditedUser : Type}.
Variable t : string -> string.

Lemma run_onUsers_no_outcome (srv : Server EditedUser) (r : Response) :
  List.filter is_refetch (run srv (onUsers r)) = []
  /\ List.filter is_success (run srv (onUsers r)) = []
  /\ List.filter is_error (run srv (onUsers r)) = []
  /\ List.filter is_throw (run srv (onUsers r)) = [].
Proof. done. Qed.


(** X11. [resetFilter] puts the paginator back to page 1 with 12 rows, but
    the query it sends is the one of the render it runs in: the page and
    the page size that were on display. Unless that was the first page (or
    the page size 0), the rows it fetches do not start at row 0. *)
Theorem resetFilter_fetches_shown_page (srv : Server EditedUser) (render : Paging) :
  take 3 (run srv (resetFilter render))
  = [Act (SetPageIndex 1); Act (SetPageSize 12);
     Req (GetUsers (size render * (index render - 1)) (size render))]
  /\ List.filter is_refetch (run srv (resetFilter render))
     = List.filter is_refetch
         (run srv (handleChangePagination (index render) (size render)))
  /\ (index render <> 1%Z -> size render <> 0%Z ->
      List.filter is_refetch (run srv (resetFilter render))
      <> List.filter is_refetch
           (run srv (handleChangePagination PAGINATION_PAGE PAGINATION_SIZE))).
Proof.
  split; [done|].
  assert (forall i n, List.filter is_refetch (run srv (handleChangePagination i n))
                      = [Req (GetUsers (n * (i - 1)) n)]) as Hq.
  { intros i n. unfold handleChangePagination. cbn [run app].
    by destruct (srv _) as [e|r]. }
  assert (List.filter is_refetch (run srv (resetFilter render))
          = [Req (GetUsers (size render * (index render - 1)) (size render))])
    as Hr.
  { unfold resetFilter, getUsers. cbn [run app].
    by destruct (srv _) as [e|r]. }
  split; [by rewrite Hr, Hq|].
  intros Hi Hs. rewrite Hr, Hq. intros [= H1 H2].
  unfold PAGINATION_PAGE, PAGINATION_SIZE in *. nia.
Qed.

Lemma run_refreshAndAlert (srv : Server EditedUser) (render : Paging) (title : string) :
  List.filter is_success (run srv (refreshAndAlert render title))
  = [Act (SetSuccessData title)]
  /\ List.filter is_error (run srv (refreshAndAlert render title)) = []
  /\ List.filter is_throw (run srv (refreshAndAlert render title)) = []
  /\ List.filter is_refetch (run srv (refreshAndAlert render title))
     = [Req (refetch_of render)].
Proof.
  unfold refreshAndAlert, resetFilter, getUsers, refetch_of.
  cbn [seq run app]. by destruct (srv _) as [e|r].
Qed.

Lemma run_alertError (srv : Server EditedUser) (title : string) (e : Err) :
  List.filter is_success (run srv (alertError (EditedUser:=EditedUser) title e)) = []
  /\ List.filter is_refetch (run srv (alertError (EditedUser:=EditedUser) title e))
     = []
  /\ List.filter is_error (run srv (alertError (EditedUser:=EditedUser) title e))
     = match e with
       | ErrDetail detail => [Act (SetErrorData title [detail])]
       | ErrNoResponse => []
       end
  /\ List.filter is_throw (run srv (alertError (EditedUser:=EditedUser) title e))
     = match e with
       | ErrDetail _ => []
       | ErrNoResponse => [Threw]
       end.
Proof. by destruct e. Qed.

(** X12. How a user action of the admin page ends. When all the requests
    of the action are answered (for a new user: the creation, then the
    update of the flags of the user the creation returned), the success
    alert of the action is raised, once, and the list is fetched again, for
    the page on display. When one fails with a detail, the error alert of
    the action is raised with that detail, once, and nothing is fetched.
    When one fails without a response, the error handler throws: no alert
    is raised at all. For a new user whose creation fails, no update is
    sent. *)
Theorem admin_action_outcome (srv : Server EditedUser) (render : Paging)
    (a : UserAction EditedUser) :
  match first_failure srv (own_requests a srv) with
  | None =>
      List.filter is_success (run srv (start t render a))
      = [Act (SetSuccessData (success_title t a))]
      /\ List.filter is_error (run srv (start t render a)) = []
      /\ List.filter is_throw (run srv (start t render a)) = []
      /\ List.filter is_refetch (run srv (start t render a))
         = [Req (refetch_of render)]
  | Some (ErrDetail detail) =>
      List.filter is_success (run srv (start t render a)) = []
      /\ List.filter is_error (run srv (start t render a))
         = [Act (SetErrorData (error_title t a) [detail])]
      /\ List.filter is_throw (run srv (start t render a)) = []
      /\ List.filter is_refetch (run srv (start t render a)) = []
  | Some ErrNoResponse =>
      List.filter is_success (run srv (start t render a)) = []
      /\ List.filter is_error (run srv (start t render a)) = []
      /\ List.filter is_throw (run srv (start t render a)) = [Threw]
      /\ List.filter is_refetch (run srv (start t render a)) = []
  end
  /\ List.filter is_own_request (run srv (start t render a))
     = map Req (own_requests a srv).
Proof.
  destruct a as [user|user editUser|user|user|user];
    unfold start, handleDeleteUser, handleDisableUser, handleSuperUserEdit,
      handleEditUser, handleNewUser, own_requests, refreshAndAlert,
      resetFilter, getUsers, refetch_of, success_title, error_title;
    cbn [run seq first_failure app];
    repeat (case_match; simplify_eq;
            cbn [run seq first_failure app alertError onUsers] in *);
    repeat split; reflexivity.
Qed.

End AdminActionsProperties.

Section AdminActionsWitnesses.
Import AdminActions.


(** The theorem after an action on page 3 with 24 rows a page. *)
Lemma resetFilter_fetches_shown_page_witness :
  List.filter is_refetch
    (run (fun _ : Request unit => inr ROk)
         (resetFilter {| size := 24; index := 3 |}))
  = [Req (GetUsers 48 24)].
Proof.
  destruct (resetFilter_fetches_shown_page (EditedUser := unit)
              (fun _ => inr ROk)
              {| size := 24; index := 3 |}) as (_ & H & _).
  rewrite H. reflexivity.
Defined.

End AdminActionsWitnesses.

(** ** More on the publish switch *)

Section DeployMoreProperties.
Import Deploy.
Context {FlowType : Type}.
Variable flow_id : FlowType -> string.
Variable t : string -> string.

Lemma replace_flow_id (updatedFlow flow : FlowType) :
  flow_id (replace_flow flow_id updatedFlow flow) = flow_id flow.
Proof.
  unfold replace_flow.
  destruct (String.eqb_spec (flow_id flow) (flow_id updatedFlow)); congruence.
Qed.

Lemma replace_flow_idem (updatedFlow flow : FlowType) :
  replace_flow flow_id updatedFlow (replace_flow flow_id updatedFlow flow)
  = replace_flow flow_id updatedFlow flow.
Proof.
  unfold replace_flow at 2 3.
  destruct (String.eqb_spec (flow_id flow) (flow_id updatedFlow)) as [He|Hne].
  - apply replace_flow_same. done.
  - by apply replace_flow_other.
Qed.

(** X13. The successful publish switch keeps the flows list in shape: the
    ids it holds stay the same, position by position; when no flow of the
    list has the id of the updated flow the list is not changed at all;
    and handling the same answer a second time changes nothing more. *)
Theorem onSuccess_keeps_ids (fl : list FlowType) (updatedFlow : FlowType)
    (st : Stores FlowType) :
  exists fl',
    flows (onSuccess flow_id t (Some fl) updatedFlow st) = Some fl'
    /\ map flow_id fl' = map flow_id fl
    /\ (flow_id updatedFlow ∉ map flow_id fl -> fl' = fl)
    /\ onSuccess flow_id t (Some fl') updatedFlow
         (onSuccess flow_id t (Some fl) updatedFlow st)
       = onSuccess flow_id t (Some fl) updatedFlow st
    /\ errorData (onSuccess flow_id t (Some fl) updatedFlow st)
       = errorData st.
Proof.
  exists (map (replace_flow flow_id updatedFlow) fl).
  split; [done|]. split; [|split; [|split; [|done]]].
  - rewrite map_map. apply map_ext. intros flow. apply replace_flow_id.
  - intros Hnot. rewrite <- (map_id fl) at 2. apply map_ext_in.
    intros flow Hin. apply replace_flow_other. intros Heq.
    apply Hnot. rewrite <- Heq. apply list_elem_of_In, in_map, Hin.
  - unfold onSuccess, setCurrentFlow, setFlows. cbn [flows currentFlow errorData].
    f_equal. f_equal. rewrite map_map. apply map_ext. intros flow.
    apply replace_flow_idem.
Qed.

End DeployMoreProperties.

Section PublishSwitchProperties.
Import Deploy PublishSwitch.
Context {FlowType : Type}.
Variable flow_id : FlowType -> string.
Variable flow_access_type : FlowType -> string.


End PublishSwitchProperties.


(** ** Splitting and joining *)

Section SplitProperties.
Import JsStr JsList.

Lemma split_nonempty (sep : ascii) (s : list ascii) : split sep s <> [].
Proof. by destruct (split_first sep s) as [pieces ->]. Qed.

(** Joining the pieces with the separator gives the string back. *)
Lemma join_split (sep : ascii) (s : list ascii) :
  join sep (split sep s) = s.
Proof.
  induction s as [|c s IH]; [done|]. cbn [split].
  destruct (Ascii.eqb_spec c sep) as [->|Hne].
  - pose proof (split_nonempty sep s).
    cbn [join]. destruct (split sep s) as [|p ps]; [done|].
    cbn [app]. by rewrite IH.
  - destruct (split sep s) as [|p ps] eqn:Hs; [by destruct (split_nonempty sep s)|].
    cbn [join] in *. destruct ps; cbn [app]; by rewrite IH.
Qed.

Lemma split_length (sep : ascii) (s : list ascii) :
  length (split sep s) = S (occurrences sep s).
Proof.
  induction s as [|c s IH]; [done|]. cbn [split occurrences].
  destruct (Ascii.eqb c sep); cbn [length]; [by rewrite IH|].
  destruct (split sep s) as [|p ps] eqn:Hs; [by destruct (split_nonempty sep s)|].
  cbn [length] in *. lia.
Qed.

Lemma split_pieces_free (sep : ascii) (s : list ascii) :
  Forall (fun piece => sep ∉ piece) (split sep s).
Proof.
  induction s as [|c s IH]; cbn [split].
  - constructor; [apply not_elem_of_nil|constructor].
  - destruct (Ascii.eqb_spec c sep) as [->|Hne].
    + constructor; [apply not_elem_of_nil|done].
    + destruct (split sep s) as [|p ps] eqn:Hs;
        [by destruct (split_nonempty sep s)|].
      apply Forall_cons in IH as [Hp Hps]. constructor; [|done].
      rewrite elem_of_cons. intros [?|?]; [congruence|done].
Qed.

Lemma occurrences_zero (sep : ascii) (s : list ascii) :
  occurrences sep s = 0 <-> sep ∉ s.
Proof.
  induction s as [|c s IH]; cbn [occurrences].
  - split; [intros _; apply not_elem_of_nil|done].
  - rewrite not_elem_of_cons. destruct (Ascii.eqb_spec c sep) as [->|Hne].
    + split; [done|]. by intros [? _].
    + simpl. rewrite IH. split; [by split; [congruence|]|by intros [_ ?]].
Qed.

Lemma join_snoc (sep : ascii) (init : list (list ascii)) (piece : list ascii) :
  init <> [] -> join sep (init ++ [piece]) = join sep init ++ sep :: piece.
Proof.
  induction init as [|p init IH]; [done|]. intros _.
  destruct init as [|q init]; [done|].
  change (join sep ((p :: q :: init) ++ [piece]))
    with (p ++ sep :: join sep ((q :: init) ++ [piece])).
  rewrite IH by done.
  change (join sep (p :: q :: init)) with (p ++ sep :: join sep (q :: init)).
  by rewrite <- app_assoc.
Qed.

End SplitProperties.

(** ** The type of a file *)

Section FilesMenuProperties.
Import JsStr JsList FilesMenu.

(** X15. The type handed over when a file is duplicated is what follows the
    last dot of its path: it holds no dot, and the path is either the type
    alone, when the path has no dot, or some text, a dot and the type. A
    path that ends with a dot has the empty type. *)
Theorem file_type_after_last_dot (path : list ascii) :
  (dot ∉ file_type path)
  /\ (path = file_type path
      \/ exists before, path = before ++ dot :: file_type path)
  /\ (dot ∉ path -> file_type path = path)
  /\ file_type (path ++ [dot]) = [].
Proof.
  assert (forall s, exists init, split dot s = init ++ [file_type s]) as Hlast.
  { intros s. unfold file_type.
    destruct (split dot s) as [|p ps] eqn:Hs using rev_ind;
      [by destruct (split_nonempty dot s)|].
    exists ps. by rewrite last_snoc. }
  assert (forall s, (dot ∉ file_type s)
                    /\ (s = file_type s
                        \/ exists before, s = before ++ dot :: file_type s))
    as Hgen.
  { intros s. destruct (Hlast s) as [init Hinit].
    pose proof (split_pieces_free dot s) as Hfree.
    pose proof (join_split dot s) as Hjoin.
    rewrite Hinit in Hfree, Hjoin.
    apply Forall_app in Hfree as [_ Hfree].
    apply Forall_cons in Hfree as [Hfree _].
    split; [done|].
    destruct init as [|p init].
    - left. symmetry. exact Hjoin.
    - right. rewrite join_snoc in Hjoin by done. eexists. symmetry.
      exact Hjoin. }
  destruct (Hgen path) as [H1 H2].
  split; [done|]. split; [done|]. split.
  - intros Hno. destruct H2 as [H2|[before H2]]; [done|].
    exfalso. apply Hno.
    assert (dot ∈ before ++ dot :: file_type path) as Hin.
    { apply elem_of_app. right. apply list_elem_of_here. }
    by rewrite <- H2 in Hin.
  - destruct (Hgen (path ++ [dot])) as [H3 H4].
    remember (file_type (path ++ [dot])) as ft eqn:Hft. clear Hft.
    destruct H4 as [H4|[before H4]].
    + exfalso. apply H3. rewrite <- H4.
      apply elem_of_app. right. apply list_elem_of_here.
    + destruct ft as [|c l _] using rev_ind; [done|].
      exfalso. rewrite app_comm_cons, app_assoc in H4.
      apply app_inj_tail in H4 as [_ <-]. apply H3.
      apply elem_of_app. right. apply list_elem_of_here.
Qed.

End FilesMenuProperties.

(** ** The badges of a handle tooltip *)

Section HandleTooltipProperties.
Import React JsStr JsList HandleTooltip.
Context {F : Type}.
Variable t : string -> string.
Variable nodeColorsName : list ascii -> option string.
Variable convertTestName : list ascii -> string.

Lemma by_tag_imap (f : nat -> list ascii -> Element F)
    (words : list (list ascii)) :
  (forall i w, by_tag "Badge" (f i w) = [f i w]) ->
  flat_map (by_tag "Badge") (imap f words) = imap f words.
Proof.
  revert f. induction words as [|w words IH]; intros f Hf; [done|].
  cbn [imap flat_map]. rewrite Hf. cbn [app]. f_equal.
  apply IH. intros i w'. apply Hf.
Qed.

Lemma badge_text_imap (f : nat -> list ascii -> Element F)
    (words : list (list ascii)) :
  (forall i w, badge_text (f i w) = w) ->
  map badge_text (imap f words) = words.
Proof.
  revert f. induction words as [|w words IH]; intros f Hf; [done|].
  cbn [imap map]. rewrite Hf. f_equal. apply IH. intros i w'. apply Hf.
Qed.

Lemma by_tag_Badge (p : Props) (i : nat) (w : list ascii) :
  by_tag "Badge" (Badge (F:=F) nodeColorsName convertTestName p i w)
  = [Badge nodeColorsName convertTestName p i w].
Proof. reflexivity. Qed.

Lemma badge_text_Badge (p : Props) (i : nat) (w : list ascii) :
  badge_text (Badge (F:=F) nodeColorsName convertTestName p i w) = w.
Proof.
  unfold badge_text. cbn [Badge children_of].
  apply list_ascii_of_string_of_list_ascii.
Qed.

(** X16. The handle tooltip shows one badge for each line of its title,
    none when the handle is on the same node: as many badges as the title
    has line breaks, plus one. The texts of the badges, joined by line
    breaks, are the title. The heading is in the plural exactly when the
    title has a line break. *)
Theorem handle_tooltip_badges (p : Props) :
  length (by_tag "Badge"
            (HandleTooltipComponent t nodeColorsName convertTestName p
               : Element F))
  = (if isSameNode p then 0 else S (occurrences newline (tooltipTitle p)))
  /\ join newline
       (map badge_text
          (by_tag "Badge"
             (HandleTooltipComponent t nodeColorsName convertTestName p
                : Element F)))
     = (if isSameNode p then [] else tooltipTitle p)
  /\ (plural p = true <-> newline ∈ tooltipTitle p).
Proof.
  assert (by_tag "Badge"
            (HandleTooltipComponent t nodeColorsName convertTestName p
               : Element F)
          = if isSameNode p then []
            else imap (Badge nodeColorsName convertTestName p) (tooltips p))
    as Hb.
  { unfold HandleTooltipComponent. cbn [by_tag String.eqb Ascii.eqb Bool.eqb].
    destruct (isSameNode p).
    - cbn [flat_map by_tag app]. by destruct (isConnecting p).
    - cbn [flat_map by_tag app String.eqb Ascii.eqb Bool.eqb].
      rewrite flat_map_app.
      rewrite (by_tag_imap _ _ (by_tag_Badge p)).
      assert (by_tag "Badge" (Lead (F:=F) t p) = []) as ->.
      { unfold Lead. by repeat case_match. }
      destruct (isConnecting p); cbn [flat_map by_tag app negb];
        by rewrite !app_nil_r. }
  rewrite Hb. split; [|split].
  - destruct (isSameNode p); [done|].
    rewrite length_imap. apply split_length.
  - destruct (isSameNode p); [done|].
    rewrite (badge_text_imap _ _ (badge_text_Badge p)).
    apply join_split.
  - unfold plural, tooltips. rewrite split_length.
    destruct (occurrences newline (tooltipTitle p)) as [|n] eqn:Ho.
    + apply occurrences_zero in Ho. simpl. split; [done|]. intros H. done.
    + simpl. split; [|done]. intros _.
      destruct (decide (newline ∈ tooltipTitle p)) as [|Hn]; [done|].
      apply occurrences_zero in Hn. congruence.
Qed.

End HandleTooltipProperties.

(** ** The test id of a navigation entry *)

Section ReplaceProperties.
Import JsStr Regex TemplatesNav.

Lemma matcher_GreedyPlus (p : ascii -> bool) (s : list ascii) :
  matcher (GreedyPlus p) s ∅ = map (fun s' => (s', ∅)) (greedy_plus p s).
Proof. reflexivity. Qed.

(** Where there is no character of the class, there is no match. *)
Lemma exec_plus_none (p : ascii -> bool) (i : nat) (s : list ascii) :
  Forall (fun c => p c = false) s -> exec (GreedyPlus p) i s = None.
Proof.
  intros Hs. revert i. induction Hs as [|c s Hc Hs IH]; intros i; [done|].
  rewrite exec_unfold, matcher_GreedyPlus. cbn [greedy_plus]. rewrite Hc.
  apply IH.
Qed.

(** The first match is the first run of characters of the class, all of
    it. *)
Lemma exec_plus_run (p : ascii -> bool) (i : nat) (a w b : list ascii) :
  Forall (fun c => p c = false) a ->
  w <> [] -> Forall (fun c => p c = true) w -> stops p b ->
  exec (GreedyPlus p) i (a ++ w ++ b)
  = Some {| index := i + length a; whole := w; groups := ∅; after := b |}.
Proof.
  intros Ha Hne Hw Hb. revert i.
  induction Ha as [|c a Hc Ha IH]; intros i.
  - destruct (greedy_plus_first p w b Hne Hw Hb) as [l Hl].
    rewrite exec_unfold, matcher_GreedyPlus. cbn [app]. rewrite Hl.
    cbn [map]. rewrite take_matched. do 2 f_equal. simpl. lia.
  - cbn [app]. rewrite exec_unfold, matcher_GreedyPlus.
    cbn [greedy_plus]. rewrite Hc. cbn [map]. rewrite IH.
    do 2 f_equal. simpl. lia.
Qed.

(** Every string is made of a part without the class followed by nothing,
    or by a run of the class and a rest that starts outside the class. *)
Lemma first_run (p : ascii -> bool) (s : list ascii) :
  Forall (fun c => p c = false) s
  \/ exists a w b,
       s = a ++ w ++ b
       /\ Forall (fun c => p c = false) a
       /\ w <> [] /\ Forall (fun c => p c = true) w /\ stops p b.
Proof.
  induction s as [|c s IH]; [by left|].
  destruct (p c) eqn:Hc.
  - right. destruct s as [|d s].
    + exists [], [c], []. repeat split; try done. by repeat constructor.
    + destruct (p d) eqn:Hd.
      * destruct IH as [IH|(a & w & b & Hs & Ha & Hne & Hw & Hb)].
        { apply Forall_cons in IH as [? _]. congruence. }
        destruct a as [|x a].
        -- exists [], (c :: w), b. cbn [app] in *. rewrite Hs.
           repeat split; try done. by constructor.
        -- cbn [app] in Hs. injection Hs as -> _.
           apply Forall_cons in Ha as [? _]. congruence.
      * exists [], [c], (d :: s). repeat split; try done.
        by repeat constructor.
  - destruct IH as [IH|(a & w & b & Hs & Ha & Hne & Hw & Hb)].
    + left. by constructor.
    + right. exists (c :: a), w, b. rewrite Hs.
      repeat split; try done. by constructor.
Qed.

Lemma replace_fuel_plus (p : ascii -> bool) (replacement : list ascii)
    (fuel : nat) (a w b : list ascii) :
  Forall (fun c => p c = false) a ->
  w <> [] -> Forall (fun c => p c = true) w -> stops p b ->
  replace_fuel (S fuel) (GreedyPlus p) replacement (a ++ w ++ b)
  = a ++ replacement ++ replace_fuel fuel (GreedyPlus p) replacement b.
Proof.
  intros Ha Hne Hw Hb. cbn [replace_fuel].
  rewrite (exec_plus_run p 0 a w b) by done.
  cbn [index whole after plus]. rewrite take_app_length.
  by destruct w.
Qed.

Lemma replace_fuel_none (p : ascii -> bool) (replacement : list ascii)
    (fuel : nat) (s : list ascii) :
  Forall (fun c => p c = false) s ->
  replace_fuel fuel (GreedyPlus p) replacement s = s.
Proof.
  intros Hs. destruct fuel as [|fuel]; [done|].
  cbn [replace_fuel]. by rewrite exec_plus_none.
Qed.

(** After the replacement no character of the class is left, when the
    replacement has none. *)
Lemma replace_fuel_free (p : ascii -> bool) (replacement : list ascii)
    (fuel : nat) (s : list ascii) :
  Forall (fun c => p c = false) replacement ->
  length s < fuel ->
  Forall (fun c => p c = false) (replace_fuel fuel (GreedyPlus p) replacement s).
Proof.
  intros Hr. revert s. induction fuel as [|fuel IH]; intros s Hlen; [lia|].
  destruct (first_run p s) as [Hs|(a & w & b & -> & Ha & Hne & Hw & Hb)].
  - by rewrite replace_fuel_none.
  - rewrite replace_fuel_plus by done.
    apply Forall_app. split; [done|]. apply Forall_app. split; [done|].
    apply IH. rewrite !length_app in Hlen.
    destruct w; [done|]. simpl in Hlen. lia.
Qed.

(** The replacement brings in no character but its own. *)
Lemma replace_fuel_Forall (P : ascii -> Prop) (p : ascii -> bool)
    (replacement : list ascii) (fuel : nat) (s : list ascii) :
  Forall P replacement -> Forall P s ->
  Forall P (replace_fuel fuel (GreedyPlus p) replacement s).
Proof.
  intros Hr. revert s. induction fuel as [|fuel IH]; intros s Hs; [done|].
  destruct (first_run p s) as [Hn|(a & w & b & -> & Ha & Hne & Hw & Hb)].
  - by rewrite replace_fuel_none.
  - rewrite replace_fuel_plus by done.
    apply Forall_app in Hs as [HPa Hs]. apply Forall_app in Hs as [_ HPb].
    apply Forall_app. split; [done|]. apply Forall_app. split; [done|].
    by apply IH.
Qed.

Lemma lower_char_not_capital (c : ascii) : is_capital (lower_char c) = false.
Proof. destruct c as [[] [] [] [] [] [] [] []]; reflexivity. Qed.

Lemma lower_char_white_space (c : ascii) :
  is_white_space (lower_char c) = is_white_space c.
Proof. destruct c as [[] [] [] [] [] [] [] []]; reflexivity. Qed.

Lemma toLowerCase_white_space (b : bool) (s : list ascii) :
  Forall (fun c => is_white_space c = b) s ->
  Forall (fun c => is_white_space c = b) (toLowerCase s).
Proof.
  intros Hs. unfold toLowerCase. apply Forall_map.
  eapply Forall_impl; [exact Hs|]. intros c Hc. simpl.
  by rewrite lower_char_white_space.
Qed.

(** X17. The test id of an entry of the templates navigation holds no white
    space and no capital letter from A to Z. A title without white space
    gives the prefix and the title in lower case; in a title of two words,
    the white space between them, however long, becomes one hyphen. *)
Theorem side_nav_testid_clean (title a w b : list ascii) :
  Forall (fun c => is_white_space c = false /\ is_capital c = false)
         (side_nav_testid title)
  /\ (Forall (fun c => is_white_space c = false) title ->
      side_nav_testid title = js "side_nav_options_" ++ toLowerCase title)
  /\ (Forall (fun c => is_white_space c = false) a ->
      w <> [] -> Forall (fun c => is_white_space c = true) w ->
      Forall (fun c => is_white_space c = false) b ->
      side_nav_testid (a ++ w ++ b)
      = js "side_nav_options_" ++ toLowerCase a ++ js "-" ++ toLowerCase b).
Proof.
  unfold side_nav_testid, replace, white_space_run. split; [|split].
  - apply Forall_app. split; [by repeat constructor|].
    apply Forall_and. split.
    + apply replace_fuel_free; [by repeat constructor|lia].
    + apply replace_fuel_Forall; [by repeat constructor|].
      unfold toLowerCase. apply Forall_map, Forall_forall. intros c _.
      apply lower_char_not_capital.
  - intros Ht. f_equal. apply replace_fuel_none.
    by apply toLowerCase_white_space.
  - intros Ha Hne Hw Hb. f_equal.
    assert (toLowerCase (a ++ w ++ b)
            = toLowerCase a ++ toLowerCase w ++ toLowerCase b) as ->.
    { unfold toLowerCase. by rewrite !map_app. }
    assert (stops is_white_space (toLowerCase b)) as Hstop.
    { destruct b as [|c b]; [done|]. apply Forall_cons in Hb as [Hc _].
      simpl. by rewrite lower_char_white_space. }
    rewrite replace_fuel_plus; [|by apply toLowerCase_white_space
                                |by destruct w
                                |by apply toLowerCase_white_space|done].
    rewrite replace_fuel_none by (by apply toLowerCase_white_space). done.
Qed.

(** The theorem for the title Get Started. *)
Lemma side_nav_testid_clean_witness :
  Forall (fun c => is_white_space c = false) (js "Get")
  /\ js " " <> []
  /\ Forall (fun c => is_white_space c = true) (js " ")
  /\ Forall (fun c => is_white_space c = false) (js "Started")
  /\ side_nav_testid (js "Get" ++ js " " ++ js "Started")
     = js "side_nav_options_get-started".
Proof.
  assert (Forall (fun c => is_white_space c = false) (js "Get")) as Ha
    by (by repeat constructor).
  assert (js " " <> []) as Hne by discriminate.
  assert (Forall (fun c => is_white_space c = true) (js " ")) as Hw
    by (by repeat constructor).
  assert (Forall (fun c => is_white_space c = false) (js "Started")) as Hb
    by (by repeat constructor).
  split; [exact Ha|]. split; [exact Hne|]. split; [exact Hw|].
  split; [exact Hb|].
  exact (proj2 (proj2 (side_nav_testid_clean [] (js "Get") (js " ")
                         (js "Started"))) Ha Hne Hw Hb).
Defined.

End ReplaceProperties.

(* --------------------------------------------------------------------- *)
(** ** [useShortcutsLocale]: the memo keyed on [t] *)

Section ShortcutsLocale.
Import Hooks Locale Shortcuts.

Lemma renders_on_t {V : Type} (factory : (string -> string) -> V)
    (ts : list TFunction) :
  forall (c : MemoCell V) (t0 : TFunction),
    memo_deps c = [t_ref t0] ->
    memo_value c = factory (t_apply t0) ->
    same_object_same_function (t0 :: ts) ->
    renders (useMemo_on_t factory) (Some c) ts
    = map (fun t => factory (t_apply t)) ts.
Proof.
  induction ts as [|t ts IH]; intros c t0 Hd Hv Hobj; [done|].
  cbn [renders map]. unfold useMemo_on_t at 1. cbn [useMemo].
  destruct (decide (memo_deps c = [t_ref t])) as [He|Hne].
  - assert (t_apply t0 = t_apply t) as Ht.
    { apply Hobj; [left | right; left | congruence]. }
    rewrite Hv, Ht. f_equal.
    apply (IH c t0 Hd Hv).
    intros t1 t2 H1 H2. apply Hobj.
    + apply elem_of_cons in H1 as [->|H1]; [left | right; by right].
    + apply elem_of_cons in H2 as [->|H2]; [left | right; by right].
  - f_equal.
    apply (IH _ t); [done | done |].
    intros t1 t2 H1 H2. apply Hobj; by right.
Qed.

Lemma mounted_on_t {V : Type} (factory : (string -> string) -> V)
    (ts : list TFunction) :
  same_object_same_function ts ->
  mounted (useMemo_on_t factory) ts = map (fun t => factory (t_apply t)) ts.
Proof.
  intros Hobj. destruct ts as [|t ts]; [done|].
  unfold mounted. cbn [renders map]. unfold useMemo_on_t at 1.
  cbn [useMemo]. f_equal.
  by apply (renders_on_t factory ts _ t).
Qed.

(** X18. [useShortcutsLocale] lists [t] as the dependency of its memo, so
    every render of a mounted component gets the shortcuts labelled by the
    translation function of that very render (two renders that receive the
    same function object share one list); the names and the key
    combinations are the same under every translation function, and no two
    of the 27 entries share a name or a key combination. *)
Theorem useShortcutsLocale_follows_language (ts : list TFunction)
    (Hobj : same_object_same_function ts) :
  mounted useShortcutsLocale ts
  = map (fun t => shortcutsFactory (t_apply t)) ts
  /\ (forall t t' : string -> string,
        map name (shortcutsFactory t) = map name (shortcutsFactory t')
        /\ map shortcut (shortcutsFactory t)
           = map shortcut (shortcutsFactory t')
        /\ map display_name (shortcutsFactory t)
           = map t (map display_name (shortcutsFactory (fun key => key))))
  /\ (forall t : string -> string,
        length (shortcutsFactory t) = 27
        /\ NoDup (map name (shortcutsFactory t))
        /\ NoDup (map shortcut (shortcutsFactory t))).
Proof.
  split; [|split].
  - by apply (mounted_on_t shortcutsFactory).
  - intros t t'. repeat split; reflexivity.
  - intros t. split; [reflexivity|].
    split; refine (bool_decide_unpack _ _); vm_compute; exact I.
Qed.

(** The theorem for a component rendered in English, then twice in
    Chinese. *)
Lemma useShortcutsLocale_follows_language_witness :
  same_object_same_function [t_en; t_zh; t_zh]
  /\ mounted useShortcutsLocale [t_en; t_zh; t_zh]
     = map (fun t => shortcutsFactory (t_apply t)) [t_en; t_zh; t_zh].
Proof.
  assert (same_object_same_function [t_en; t_zh; t_zh]) as Hobj.
  { intros t1 t2 H1 H2.
    repeat (apply elem_of_cons in H1 as [->|H1]);
      repeat (apply elem_of_cons in H2 as [->|H2]);
      try (by apply elem_of_nil in H1); try (by apply elem_of_nil in H2);
      cbn; intros; (reflexivity || discriminate). }
  split; [exact Hobj|].
  exact (proj1 (useShortcutsLocale_follows_language _ Hobj)).
Defined.

End ShortcutsLocale.

(* --------------------------------------------------------------------- *)
(** ** [useColumnDefs]: the memo keyed on [open] *)

Section ColumnDefsProperties.
Import Hooks ColumnDefs.

Lemma renders_same_open (later rest : list ((string -> string) * Args)) :
  forall c : MemoCell (list ColDef),
    (forall call, call ∈ later ->
                  [Nat.b2n (open call.2)] = memo_deps c) ->
    renders (Some c) (later ++ rest)
    = map (fun _ => memo_value c) later ++ renders (Some c) rest.
Proof.
  induction later as [|[t a] later IH]; intros c Hsame; [done|].
  cbn [app renders map]. unfold useColumnDefs at 1. cbn [useMemo].
  rewrite decide_True by (symmetry; apply (Hsame (t, a)); left).
  cbn [app]. f_equal. apply IH. intros call Hin. apply Hsame. by right.
Qed.

Lemma b2n_inj (b1 b2 : bool) : Nat.b2n b1 = Nat.b2n b2 -> b1 = b2.
Proof. by destruct b1, b2. Qed.

(** X19. The columns are computed on mount and again only at a render where
    [open] differs from its value at the last computation: as long as
    [open] keeps its value, every render gets the columns of the first one,
    whatever node, tweak mode, visibility flag or translation function it
    is given; the first render at which [open] has changed gets the columns
    of its own arguments.  A computed table has the columns [display_name],
    [info] and [value], preceded by [advanced] unless [hideVisibility] is
    set. *)
Theorem useColumnDefs_keyed_on_open (t1 : string -> string) (a1 : Args)
    (later : list ((string -> string) * Args))
    (Hsame : forall call, call ∈ later -> open call.2 = open a1) :
  renders None ((t1, a1) :: later)
  = colDefsFactory t1 a1 :: map (fun _ => colDefsFactory t1 a1) later
  /\ (forall (t2 : string -> string) (a2 : Args),
        open a2 <> open a1 ->
        renders None ((t1, a1) :: later ++ [(t2, a2)])
        = (colDefsFactory t1 a1 :: map (fun _ => colDefsFactory t1 a1) later)
          ++ [colDefsFactory t2 a2])
  /\ (forall (t : string -> string) (a : Args),
        map (property "field") (colDefsFactory t a)
        = (if truthy (hideVisibility a) then []
           else [Some (CStr "advanced")])
          ++ [Some (CStr "display_name"); Some (CStr "info");
              Some (CStr "value")]).
Proof.
  set (c := {| memo_deps := [Nat.b2n (open a1)];
               memo_value := colDefsFactory t1 a1 |}).
  assert (forall call, call ∈ later ->
                       [Nat.b2n (open call.2)] = memo_deps c) as Hc.
  { intros call Hin. cbn. by rewrite (Hsame call Hin). }
  split; [|split].
  - cbn [renders]. unfold useColumnDefs at 1. cbn [useMemo]. f_equal.
    fold c. rewrite <- (app_nil_r later) at 1.
    rewrite (renders_same_open later [] c Hc). cbn [renders].
    by rewrite app_nil_r.
  - intros t2 a2 Hne.
    cbn [renders]. unfold useColumnDefs at 1. cbn [useMemo]. fold c.
    rewrite (renders_same_open later [(t2, a2)] c Hc).
    cbn [renders app]. f_equal. f_equal.
    unfold useColumnDefs. cbn [useMemo].
    rewrite decide_False; [done|].
    cbn. intros Heq. apply Hne. apply b2n_inj. congruence.
  - intros t a. unfold colDefsFactory.
    destruct (truthy (hideVisibility a)); reflexivity.
Qed.

End ColumnDefsProperties.

(** The theorem for a table first rendered in English for one node, then
    rendered in Chinese, in tweak mode, for another node, with [open]
    unchanged. *)
Lemma useColumnDefs_keyed_on_open_witness :
  ColumnDefs.renders None
    [(Hooks.t_apply Locale.t_en,
      {| ColumnDefs.nodeId := "node-1"; ColumnDefs.open := true;
         ColumnDefs.isTweaks := None; ColumnDefs.hideVisibility := None |});
     (Hooks.t_apply Locale.t_zh,
      {| ColumnDefs.nodeId := "node-2"; ColumnDefs.open := true;
         ColumnDefs.isTweaks := Some true;
         ColumnDefs.hideVisibility := Some true |})]
  = [ColumnDefs.colDefsFactory (Hooks.t_apply Locale.t_en)
       {| ColumnDefs.nodeId := "node-1"; ColumnDefs.open := true;
          ColumnDefs.isTweaks := None; ColumnDefs.hideVisibility := None |};
     ColumnDefs.colDefsFactory (Hooks.t_apply Locale.t_en)
       {| ColumnDefs.nodeId := "node-1"; ColumnDefs.open := true;
          ColumnDefs.isTweaks := None; ColumnDefs.hideVisibility := None |}].
Proof.
  refine (proj1 (useColumnDefs_keyed_on_open _ _ [_] _)).
  intros call Hin. apply elem_of_cons in Hin as [->|Hin]; [reflexivity|].
  by apply elem_of_nil in Hin.
Defined.

(* --------------------------------------------------------------------- *)
(** ** The entries of the settings side bar *)

Section SettingsProperties.
Import Settings.

(** X20. The four fixed entries of the settings side bar keep their order,
    the General entry comes first when it is shown, and it is hidden only
    when profile icons are off, there is no store and the user is logged in
    automatically.  The store entries are spliced in at index 2 of the list
    as it is then: after MCP servers when the General entry is shown, after
    Global variables when it is hidden; with the DataStax flag on they are
    left out. *)
Theorem sidebarNavItems_layout (t : string -> string)
    (ENABLE_PROFILE_ICONS ENABLE_DATASTAX_LANGFLOW : bool)
    (langflowItems : list NavItem) (hasStore autoLogin : bool) :
  let items :=
    sidebarNavItems t ENABLE_PROFILE_ICONS ENABLE_DATASTAX_LANGFLOW
      langflowItems hasStore autoLogin in
  let store := if ENABLE_DATASTAX_LANGFLOW then [] else langflowItems in
  items
  = (if showGeneralSettings ENABLE_PROFILE_ICONS hasStore autoLogin
     then general_item t :: take 1 (fixed_items t) ++ store
                            ++ drop 1 (fixed_items t)
     else take 2 (fixed_items t) ++ store ++ drop 2 (fixed_items t))
  /\ fixed_items t `sublist_of` items
  /\ length items
     = ((if showGeneralSettings ENABLE_PROFILE_ICONS hasStore autoLogin
         then 1 else 0) + 4 + length store)%nat
  /\ (showGeneralSettings ENABLE_PROFILE_ICONS hasStore autoLogin = false
      <-> ENABLE_PROFILE_ICONS = false /\ hasStore = false
          /\ autoLogin = true).
Proof.
  intros items store.
  assert (items
          = if showGeneralSettings ENABLE_PROFILE_ICONS hasStore autoLogin
            then general_item t :: take 1 (fixed_items t) ++ store
                                   ++ drop 1 (fixed_items t)
            else take 2 (fixed_items t) ++ store ++ drop 2 (fixed_items t))
    as Hitems.
  { unfold items, store, sidebarNavItems, splice.
    destruct (showGeneralSettings _ _ _), ENABLE_DATASTAX_LANGFLOW;
      reflexivity. }
  split; [exact Hitems|]. split; [|split].
  - rewrite Hitems.
    destruct (showGeneralSettings _ _ _).
    + apply sublist_cons.
      rewrite <- (take_drop 1 (fixed_items t)) at 1.
      apply sublist_app; [done|]. by apply sublist_inserts_l.
    + rewrite <- (take_drop 2 (fixed_items t)) at 1.
      apply sublist_app; [done|]. by apply sublist_inserts_l.
  - rewrite Hitems.
    destruct (showGeneralSettings _ _ _); cbn [length take drop fixed_items];
      rewrite ?length_app; cbn [length app]; rewrite ?length_app;
      cbn [length]; lia.
  - unfold showGeneralSettings.
    destruct ENABLE_PROFILE_ICONS, hasStore, autoLogin; cbn; intuition congruence.
Qed.

End SettingsProperties.

(* --------------------------------------------------------------------- *)
(** ** The language effect of [App] *)

Section AppProperties.
Import I18nStore LanguageMenu App.

Lemma lang_onClick (item : Language) (w : Storage * I18nType) :
  lang w.2 <> [] -> lang (onClick item w).2 <> [].
Proof.
  intros Hw. unfold onClick.
  destruct (negb (selected item (lang w.2))); [|done].
  by destruct item.
Qed.

Lemma after_clicks_spec (items : list Language) :
  forall w : Storage * I18nType,
    lang w.2 <> [] ->
    (after_clicks w items).1 = clicks w items
    /\ last (lang w.2 :: (after_clicks w items).2)
       = Some (lang (clicks w items).2)
    /\ no_repeat (lang w.2 :: (after_clicks w items).2).
Proof.
  induction items as [|item items IH]; intros w Hw; [done|].
  cbn [after_clicks]. unfold clicks. cbn [foldl]. fold (clicks (onClick item w) items).
  destruct (IH (onClick item w) (lang_onClick item w Hw)) as (H1 & H2 & H3).
  destruct (after_clicks (onClick item w) items) as [w'' calls] eqn:Hac.
  cbn [fst snd] in *.
  split; [exact H1|].
  unfold after_render.
  destruct (decide (lang (onClick item w).2 = lang w.2)) as [He|Hne].
  - cbn [app]. rewrite <- He. by split.
  - pose proof (lang_onClick item w Hw) as Hl.
    unfold lang_effect.
    destruct (lang (onClick item w).2) as [|ch l'] eqn:Hlang; [done|].
    cbn [app]. split.
    + exact H2.
    + split; [congruence | exact H3].
Qed.

(** X21. [App] calls [i18n.changeLanguage] from an effect keyed on the
    store's language.  When the page is mounted with a language in the
    store and the user then clicks on items of the language menu, the last
    call of [changeLanguage] is for the language the store holds at the
    end, the first is for the language at mount, and no two calls in a row
    are for the same language. *)
Theorem app_language_follows_store (w : Storage * I18nType)
    (items : list Language) (Hlang : lang w.2 <> []) :
  (session w items).1 = clicks w items
  /\ head (session w items).2 = Some (lang w.2)
  /\ last (session w items).2 = Some (lang (clicks w items).2)
  /\ no_repeat (session w items).2.
Proof.
  destruct (after_clicks_spec items w Hlang) as (H1 & H2 & H3).
  unfold session.
  destruct (after_clicks w items) as [w' calls] eqn:Hac.
  cbn [fst snd] in *.
  unfold lang_effect.
  destruct (lang w.2) as [|ch l'] eqn:Hl; [done|].
  cbn [app]. by repeat split.
Qed.

End AppProperties.

(** The theorem for a page mounted in English whose user picks Chinese,
    Chinese again, then English. *)
Lemma app_language_follows_store_witness :
  I18nStore.lang ((∅ : I18nStore.Storage), {| I18nStore.lang := js "en" |}).2 <> []
  /\ (App.session ((∅ : I18nStore.Storage), {| I18nStore.lang := js "en" |})
        [I18nStore.zh; I18nStore.zh; I18nStore.en]).2
      = [js "en"; js "zh"; js "en"]
  /\ last (App.session ((∅ : I18nStore.Storage), {| I18nStore.lang := js "en" |})
             [I18nStore.zh; I18nStore.zh; I18nStore.en]).2
      = Some (I18nStore.lang
                (LanguageMenu.clicks ((∅ : I18nStore.Storage), {| I18nStore.lang := js "en" |})
                   [I18nStore.zh; I18nStore.zh; I18nStore.en]).2).
Proof.
  assert (I18nStore.lang ((∅ : I18nStore.Storage), {| I18nStore.lang := js "en" |}).2 <> [])
    as Hlang by discriminate.
  split; [exact Hlang|]. split; [reflexivity|].
  exact (proj1 (proj2 (proj2
           (app_language_follows_store _
              [I18nStore.zh; I18nStore.zh; I18nStore.en] Hlang)))).
Defined.
